(** * Semantic chunking of the RAG notebook: window combiner and the two chunkers

    Shallow embedding of the chunking code of [RAG_model.ipynb]:
    - [split_sentences]            the sentence split of the cleaned text,
    - [func]                       the window combiner (cell "def func"),
    - [semantic_chunking]          the sequential similarity chunker,
    - [semantic_cluster_chunking]  the anchor cluster chunker,
    - [chroma_activate]            the indexing of the chunks.

    Python values are modelled as follows.
    - [str] is [string]; characters are the code points below 256.
    - [int] is [Z]; loop indices produced by [range] with a non-negative start
      and by [enumerate] are never negative and are kept in [nat] (they are
      coerced to [Z] where they are used as subscripts).
    - A list subscript [l[i]] is [getitem], which raises [IndexError] out of
      range as Python does.
    - The sentence-transformer model and scikit-learn's [cosine_similarity]
      are external: they are the fields of the class [EmbeddingProvider].
      A similarity is a finite floating point number, hence a rational; the
      code only compares similarities, so they are kept in [Q].  Two
      similarities are compared as they stand; the threshold, a Python
      [float], is first converted to the precision of the similarity
      ([round_threshold]).
    - The set [used] of the anchor chunker is a [gset nat], threaded through
      the anchors as the single mutable object it is in the source. *)

From Stdlib Require Import Ascii String QArith Qround Lqa.
From stdpp Require Import base list sorting gmap sets strings pretty.

Set Warnings "-clear-no-such-hyp".

Local Open Scope Z_scope.
Local Open Scope nat_scope.

(** A non-negative Python integer used where an [int] is expected. *)
Coercion Z.of_nat : nat >-> Z.

(** ** Python prelude *)

Module Py.

Inductive exn := IndexError | ValueError.

Inductive result (A : Type) : Type :=
  | Ok (a : A)
  | Raise (e : exn).
Arguments Ok {A} a.
Arguments Raise {A} e.

Global Instance result_ret : MRet result := λ A, Ok.
Global Instance result_bind : MBind result := λ A B f m,
  match m with Ok a => f a | Raise e => Raise e end.

(** [l[i]] with Python's rule for negative subscripts. *)
Definition getitem {A} (l : list A) (i : Z) : result A :=
  let n := Z.of_nat (length l) in
  let j := if (i <? 0)%Z then (i + n)%Z else i in
  if (j <? 0)%Z then Raise IndexError
  else match l !! Z.to_nat j with
       | Some x => Ok x
       | None => Raise IndexError
       end.

(** [range(start, stop)] *)
Definition range (start stop : Z) : list Z :=
  (λ k : nat, (start + k)%Z) <$> seq 0 (Z.to_nat (stop - start)).

(** [range(0, stop, step)] for [stop >= 0]: [ValueError] when [step] is zero,
    empty when [step] is negative. *)
Definition range_step (stop : nat) (step : Z) : result (list nat) :=
  if decide (step = 0%Z) then Raise ValueError
  else if decide (step < 0)%Z then Ok []
  else Ok ((λ k : nat, k * Z.to_nat step) <$>
             seq 0 (Z.to_nat ((stop + step - 1) / step))).

(** [enumerate(l)], materialised *)
Definition enumerate {A} (l : list A) : list (nat * A) :=
  zip (seq 0 (length l)) l.

(** [for x in l: s = body(x, s)] where the body may raise *)
Fixpoint for_each {A S} (l : list A) (s : S) (body : A → S → result S)
  : result S :=
  match l with
  | [] => Ok s
  | x :: l' => s' ← body x s; for_each l' s' body
  end.

(** The same loop with [break]. *)
Inductive flow (S : Type) : Type :=
  | Continue (s : S)
  | Break (s : S).
Arguments Continue {S} s.
Arguments Break {S} s.

Fixpoint for_break {A S} (l : list A) (s : S)
    (body : A → S → result (flow S)) : result S :=
  match l with
  | [] => Ok s
  | x :: l' =>
      f ← body x s;
      match f with
      | Continue s' => for_break l' s' body
      | Break s' => Ok s'
      end
  end.

(** [str.isspace] on the code points below 256 *)
Definition is_space (c : ascii) : bool :=
  let n := nat_of_ascii c in
  ((9 <=? n) && (n <=? 13)) || ((28 <=? n) && (n <=? 32))
  || (n =? 133) || (n =? 160).

(** [s.split()]: the maximal runs of non-space characters.  [cur] is the run
    being read, if any. *)
Fixpoint split_from (cur : option string) (s : string) : list string :=
  match s with
  | EmptyString => match cur with Some w => [w] | None => [] end
  | String c s' =>
      if is_space c then
        match cur with
        | Some w => w :: split_from None s'
        | None => split_from None s'
        end
      else split_from (Some (default EmptyString cur +:+ String c EmptyString)) s'
  end.

Definition split (s : string) : list string := split_from None s.

(** [sep.join(l)] *)
Definition join (sep : string) (l : list string) : string :=
  String.concat sep l.

Definition Qltb (x y : Q) : bool := negb (Qle_bool y x).

Definition insert_by {A} (key : A → Q) (x : A) : list A → list A :=
  fix go l :=
    match l with
    | [] => [x]
    | y :: l' => if Qltb (key y) (key x) then y :: go l' else x :: l
    end.

(** [sorted(l, key=key)]: Python's sort is stable, and a stable sort has one
    result only; insertion from the right computes it. *)
Definition sorted {A} (key : A → Q) (l : list A) : list A :=
  foldr (insert_by key) [] l.

End Py.
Import Py.

(** ** The window combiner *)

(** [{'sentences': j, 'index': i}] *)
Record SentenceRecord := { sentences : string; index : Z }.

Definition func_window (sents : list SentenceRecord) (buffer_size : Z)
    (index : nat) : result string :=
  val ← for_each (range (index - Z.min index buffer_size) (index + 1)) EmptyString
         (λ o1 val, r ← getitem sents o1; mret (val +:+ sentences r));
  let k := val in
  val ← for_each (range (index + 1)
                    (Z.min (length sents) (buffer_size + 1 + index))) EmptyString
         (λ o2 val, r ← getitem sents o2; mret (val +:+ sentences r));
  mret (k +:+ val).

Definition func (sents : list SentenceRecord) (buffer_size : Z)
  : result (list string) :=
  for_each (enumerate sents) []
    (λ '(index, value) combined,
       k ← func_window sents buffer_size index; mret (combined ++ [k])).

(** The records of the split text, as the notebook builds them:
    [sentences.append({'sentences': j, 'index': i})]. *)
Definition mk_sentences (s : list string) : list SentenceRecord :=
  (λ '(i, j), {| sentences := j; index := Z.of_nat i |}) <$> enumerate s.


(** ** The embedding provider *)

(** [model.encode] and [cosine_similarity] are library calls.  [encode] maps
    a batch of texts to one embedding per text, in order; [cosine_similarity]
    stands for the entry that scikit-learn computes for a pair of rows, a
    NumPy [float32].

    [sim > threshold] compares that [float32] with the Python [float] the
    caller passed.  NumPy does not compare the two numbers as they stand: it
    first converts the threshold to the precision of the similarity (NumPy 2
    rounds it to the nearest [float32]; NumPy 1 compared in double precision,
    where both numbers are exact).  [round_threshold] is that conversion.  It
    is monotone, and it leaves a similarity, which has that precision
    already, as it is. *)
Class EmbeddingProvider := {
  embedding : Type;
  encode : list string → list embedding;
  cosine_similarity : embedding → embedding → Q;
  round_threshold : Q → Q;
  encode_length : ∀ texts, length (encode texts) = length texts;
  round_threshold_mono : ∀ x y : Q,
    (x <= y)%Q → (round_threshold x <= round_threshold y)%Q;
  cosine_similarity_rounded : ∀ e e',
    (round_threshold (cosine_similarity e e') == cosine_similarity e e')%Q
}.

(** The outcome of a call, with the number of [model.encode] requests that
    were issued before it returned or raised. *)
Record run (A : Type) := Run { encode_calls : nat; outcome : result A }.
Arguments Run {A} _ _.
Arguments encode_calls {A} _.
Arguments outcome {A} _.

(** [len(s.split())] *)
Definition word_count_of (s : string) : nat := length (split s).

(** A chunk is the space-joined text of its windows; the model keeps, next to
    each appended text, the position it was read from. *)
Record Chunk := { text : string; memberIndices : list nat }.

Definition emit (members : list (nat * string)) : Chunk :=
  {| text := join " " members.*2; memberIndices := members.*1 |}.

Section chunkers.
Context `{P : EmbeddingProvider}.

(** *** The sequential chunker *)

Record seq_state := SeqState {
  chunks : list Chunk;
  current_chunk : list (nat * string);
  current_len : nat
}.

(** The condition of the [if] of the loop body at position [i]:
    [sim > threshold and current_len + next_len <= chunk_limit].  The first
    comparison is NumPy's, made after the conversion of the threshold. *)
Definition merge_test (threshold : Q) (chunk_limit : Z) (sim : Q)
    (current_len next_len : nat) : bool :=
  Qltb (round_threshold threshold) sim
  && (current_len + next_len <=? chunk_limit)%Z.

Definition semantic_chunking_body (comb : list string)
    (embeddings : list embedding) (threshold : Q) (chunk_limit : Z)
    (i : nat) (st : seq_state) : result seq_state :=
  e_i ← getitem embeddings i;
  e_prev ← getitem embeddings (i - 1)%Z;
  let sim := cosine_similarity e_i e_prev in
  c_i ← getitem comb i;
  let next_len := word_count_of c_i in
  if merge_test threshold chunk_limit sim (current_len st) next_len then
    mret (SeqState (chunks st) (current_chunk st ++ [(i, c_i)])
            (current_len st + next_len))
  else
    mret (SeqState (chunks st ++ [emit (current_chunk st)]) [(i, c_i)] next_len).

(** The state when the loop has run for [i = 1 .. k]. *)
Definition semantic_chunking_loop (comb : list string)
    (embeddings : list embedding) (threshold : Q) (chunk_limit : Z)
    (k : nat) : result seq_state :=
  c_0 ← getitem comb 0%nat;
  for_each (seq 1 k) (SeqState [] [(0, c_0)] (word_count_of c_0))
    (semantic_chunking_body comb embeddings threshold chunk_limit).

Definition semantic_chunking (comb : list string) (threshold : Q)
    (chunk_limit : option Z) : run (list Chunk) :=
  let chunk_limit := default 512%Z chunk_limit in
  let embeddings := encode comb in
  Run 1 (st ← semantic_chunking_loop comb embeddings threshold chunk_limit
                (length comb - 1);
         mret (chunks st ++ [emit (current_chunk st)])).

(** *** The anchor chunker *)

Record scan_state := ScanState {
  chunk : list (nat * string);
  used : gset nat;
  word_count : nat
}.

(** One round of [for idx, sim in ranked]. *)
Definition scan_body (comb : list string) (chunk_limit : Z)
    (cand : nat * Q) (st : scan_state) : result (flow scan_state) :=
  let '(idx, sim) := cand in
  if decide (idx ∈ used st) then mret (Continue st)
  else
    c ← getitem comb idx;
    let wc := word_count_of c in
    let st' :=
      if (word_count st + wc <=? chunk_limit)%Z
      then ScanState (chunk st ++ [(idx, c)]) ({[idx]} ∪ used st)
             (word_count st + wc)
      else st in
    if (chunk_limit <=? word_count st')%Z then mret (Break st')
    else mret (Continue st').

Definition ranked_for (embeddings : list embedding) (anchor_emb : embedding)
  : list (nat * Q) :=
  let similarities := cosine_similarity anchor_emb <$> embeddings in
  sorted (λ x, - x.2)%Q (enumerate similarities).

(** The scan of one anchor, from the [used] set left by the earlier ones. *)
Definition scan_anchor (comb : list string) (embeddings : list embedding)
    (chunk_limit : Z) (i : nat) (used0 : gset nat) : result scan_state :=
  anchor_emb ← getitem embeddings i;
  for_break (ranked_for embeddings anchor_emb) (ScanState [] used0 0)
    (scan_body comb chunk_limit).

Definition anchor_body (comb : list string) (embeddings : list embedding)
    (chunk_limit : Z) (i : nat) (st : list Chunk * gset nat)
  : result (list Chunk * gset nat) :=
  sc ← scan_anchor comb embeddings chunk_limit i st.2;
  match chunk sc with
  | [] => mret (st.1, used sc)
  | _ :: _ => mret (st.1 ++ [emit (chunk sc)], used sc)
  end.

Definition semantic_cluster_chunking (comb : list string) (anchor_stride : Z)
    (chunk_limit : Z) : run (list Chunk) :=
  let embeddings := encode comb in
  Run 1 (anchors ← range_step (length comb) anchor_stride;
         st ← for_each anchors ([], ∅)
                (anchor_body comb embeddings chunk_limit);
         mret st.1).

End chunkers.

(** The defaults of the signatures. *)
Definition default_threshold : Q := 0.75.
Definition default_anchor_stride : Z := 5.
Definition default_chunk_limit : Z := 512.

(** ** Providers used in the examples *)

(** The embedding of a text is the text; [sim] tabulates the similarity and
    [round] is the conversion of the threshold. *)
Definition rounding_provider (sim : string → string → Q) (round : Q → Q)
    (round_mono : ∀ x y : Q, (x <= y)%Q → (round x <= round y)%Q)
    (sim_rounded : ∀ a b, (round (sim a b) == sim a b)%Q)
  : EmbeddingProvider :=
  {| embedding := string; encode := id; cosine_similarity := sim;
     round_threshold := round;
     encode_length := λ _, eq_refl;
     round_threshold_mono := round_mono;
     cosine_similarity_rounded := sim_rounded |}.

(** A provider whose comparison takes the threshold as it stands.  This is
    the comparison in double precision, and also the one in [float32] at a
    threshold that is a [float32] already, as 0.25, 0.75, 1 and 3.5 are. *)
Definition table_provider (sim : string → string → Q) : EmbeddingProvider :=
  rounding_provider sim id (λ _ _ H, H) (λ a b, Qeq_refl (sim a b)).

(** Rounding to the nearest integer, ties to the even one. *)
Definition round_half_even (y : Q) : Z :=
  let f := Qfloor y in
  match (y - inject_Z f ?= 1 # 2)%Q with
  | Lt => f
  | Gt => (f + 1)%Z
  | Eq => if Z.even f then f else (f + 1)%Z
  end.

(** Between 1/2 and 2 every [float32] is a multiple of [2^-24]; between 1/2
    and 1 they are all of them.  [round_float32_unit] rounds to the nearest
    multiple of [2^-24], ties to even: it is the conversion to [float32] of
    a threshold between 1/2 and 1. *)
Definition round_float32_unit (x : Q) : Q :=
  Qmake (round_half_even (x * inject_Z (2 ^ 24))) (2 ^ 24).

(** The Python [float] [0.8], and the [float32] nearest to it. *)
Definition float_0_8 : Q := 3602879701896397 # 4503599627370496.
Definition float32_0_8 : Q := 13421773 # 16777216.

(** The [float32] that follows 1. *)
Definition float32_above_1 : Q := 16777218 # 16777216.

Definition sim_eq (high low : Q) (a b : string) : Q :=
  if decide (a = b) then high else low.

(** ** The sentence segmenter *)

(** [s=re.split(r'(?<=[.!?])\s+|\n{2,}', full_clean_text.strip())].

    The pattern matches no empty string.  [re.split] looks for the leftmost
    position at which one of the two alternatives matches, the first one
    first: a run of whitespace whose preceding character is one of [.!?],
    or a run of two or more newlines; both runs are greedy and nothing
    follows them, so a match takes the whole run.  The text between the
    matches, with the text before the first and after the last one, is the
    result. *)

(** [s.lstrip()], [s.rstrip()], [s.strip()] *)
Fixpoint lstrip (s : string) : string :=
  match s with
  | EmptyString => EmptyString
  | String c s' => if is_space c then lstrip s' else s
  end.

Fixpoint rstrip (s : string) : string :=
  match s with
  | EmptyString => EmptyString
  | String c s' =>
      match rstrip s' with
      | EmptyString => if is_space c then EmptyString else String c EmptyString
      | r => String c r
      end
  end.

Definition strip (s : string) : string := rstrip (lstrip s).

(** The class [[.!?]] *)
Definition is_terminal (c : ascii) : bool :=
  (c =? ".")%char || (c =? "!")%char || (c =? "?")%char.

Definition newline : ascii := "010"%char.

Definition starts_with_newline (s : string) : bool :=
  match s with
  | String c _ => (c =? newline)%char
  | EmptyString => false
  end.

(** Where the scan of [re.split] is: in the text between two matches, the
    previous character of the string at hand, or inside a match of the first
    or of the second alternative. *)
Inductive split_mode :=
  | InText (prev : option ascii)
  | InSpaces
  | InNewlines.

(** [piece] is the text read since the last match.  A character that ends a
    match cannot start another one: after a whitespace run it is no
    whitespace, and after a newline run it is no newline and follows a
    newline, not one of [.!?]. *)
Fixpoint re_split_go (mode : split_mode) (piece : string) (s : string)
  : list string :=
  match s with
  | EmptyString => [piece]
  | String c s' =>
      match mode with
      | InSpaces =>
          if is_space c then re_split_go InSpaces EmptyString s'
          else re_split_go (InText (Some c)) (String c EmptyString) s'
      | InNewlines =>
          if (c =? newline)%char then re_split_go InNewlines EmptyString s'
          else re_split_go (InText (Some c)) (String c EmptyString) s'
      | InText prev =>
          if from_option is_terminal false prev && is_space c then
            piece :: re_split_go InSpaces EmptyString s'
          else if (c =? newline)%char && starts_with_newline s' then
            piece :: re_split_go InNewlines EmptyString s'
          else re_split_go (InText (Some c)) (piece +:+ String c EmptyString) s'
      end
  end.

Definition split_sentences (full_clean_text : string) : list string :=
  re_split_go (InText None) EmptyString (strip full_clean_text).

(** The windows the notebook chunks: the records of the split text combined
    with [buffer_size = 1]. *)
Definition notebook_comb (full_clean_text : string) : result (list string) :=
  func (mk_sentences (split_sentences full_clean_text)) 1.

(** ** Indexing the chunks *)

Section indexing.
Context `{P : EmbeddingProvider}.

(** The collection is a vector store outside of the notebook; it stands here
    for the [add] requests it has received, in order. *)
Record AddRequest := {
  documents : list string;
  embeddings : list embedding;
  ids : list string
}.

(** [f"id-{i}"] *)
Definition chunk_id (i : nat) : string := "id-" +:+ pretty i.

Definition chroma_activate (chunks : list string) (collection : list AddRequest)
  : result (list AddRequest) :=
  for_each (enumerate chunks) collection
    (λ '(i, text) collection,
       embedding ← getitem (encode [text]) 0%nat;
       mret (collection ++ [{| documents := [text];
                               embeddings := [embedding];
                               ids := [chunk_id i] |}])).

End indexing.

(** ** Specification vocabulary *)

(** The texts of the records at positions [lo .. hi], both included. *)
Definition span (sents : list SentenceRecord) (lo hi : Z) : list string :=
  sentences <$> take (Z.to_nat (hi + 1 - lo)) (drop (Z.to_nat lo) sents).

(** Concatenation without a separator. *)
Definition glue (l : list string) : string := foldr String.app EmptyString l.

(** The window of position [i] in the words of the contract: the left span
    [max(0, i - bufferSize) .. i], then the right span
    [i + 1 .. min(len - 1, i + bufferSize)]. *)
Definition window_spec (sents : list SentenceRecord) (bufferSize : Z)
    (i : nat) : string :=
  glue (span sents (Z.max 0 (i - bufferSize)) i)
  +:+ glue (span sents (i + 1) (Z.min (length sents - 1) (i + bufferSize))).

(** The members of a chunk under construction were read from [comb]. *)
Definition members_of (comb : list string) (ms : list (nat * string)) : Prop :=
  Forall (λ m, comb !! m.1 = Some m.2) ms.

(** The accumulated word count of a list of members. *)
Definition words_of (ms : list (nat * string)) : nat :=
  sum_list_with (λ m, word_count_of m.2) ms.

(** An emitted chunk: the join of a non-empty list of windows of [comb]. *)
Definition chunk_wf (comb : list string) (c : Chunk) : Prop :=
  ∃ ms, c = emit ms ∧ ms ≠ [] ∧ members_of comb ms.

(** What holds of the state of the sequential chunker after round [k]. *)
Record seq_inv (comb : list string) (k : nat) (st : seq_state) : Prop := SeqInv {
  inv_cover :
    concat (memberIndices <$> chunks st) ++ (current_chunk st).*1 = seq 0 (S k);
  inv_last : last (current_chunk st).*1 = Some k;
  inv_len : current_len st = words_of (current_chunk st);
  inv_members : members_of comb (current_chunk st);
  inv_chunks : Forall (chunk_wf comb) (chunks st)
}.

(** The member indices of the chunks a state stands for, the chunk under
    construction last. *)
Definition groups_of (st : seq_state) : list (list nat) :=
  (memberIndices <$> chunks st) ++ [(current_chunk st).*1].

(** The order of the result of a stable sort: by key, and by original
    position among equal keys. *)
Definition stable_le {A} (key : A → Q) (pos : A → nat) (a b : A) : Prop :=
  (key a < key b)%Q ∨ ((key a == key b)%Q ∧ pos a < pos b).

(** [x] is ranked before [y]: a higher similarity, or the same similarity and
    a smaller index. *)
Definition ranks_before (x y : nat * Q) : Prop :=
  (y.2 < x.2)%Q ∨ ((x.2 == y.2)%Q ∧ x.1 < y.1).

(** The state after the candidate [idx] with text [c] was accepted. *)
Definition accept (st : scan_state) (idx : nat) (c : string) : scan_state :=
  ScanState (chunk st ++ [(idx, c)]) ({[idx]} ∪ used st)
    (word_count st + word_count_of c).

Definition flow_state {S} (f : flow S) : S :=
  match f with Continue s => s | Break s => s end.

(** What holds of the state of a scan that started from the set [used0]. *)
Record scan_ok (comb : list string) (chunk_limit : Z) (used0 : gset nat)
    (st : scan_state) : Prop := ScanOk {
  ok_nodup : NoDup (chunk st).*1;
  ok_fresh : ∀ i, i ∈ (chunk st).*1 → i ∉ used0;
  ok_used : used st = list_to_set (chunk st).*1 ∪ used0;
  ok_count : word_count st = words_of (chunk st);
  ok_members : members_of comb (chunk st);
  ok_budget : chunk st ≠ [] → (word_count st ≤ chunk_limit)%Z
}.

(** An emitted anchor chunk: a non-empty list of windows of [comb] whose
    accumulated word count is within the limit. *)
Definition chunk_within (comb : list string) (chunk_limit : Z) (c : Chunk) : Prop :=
  ∃ ms, c = emit ms ∧ ms ≠ [] ∧ members_of comb ms
        ∧ (words_of ms ≤ chunk_limit)%Z.

(** What holds of the chunks and of the set [used] between two anchors. *)
Record anchors_ok (comb : list string) (chunk_limit : Z)
    (st : list Chunk * gset nat) : Prop := AnchorsOk {
  aok_nodup : NoDup (concat (memberIndices <$> st.1));
  aok_used : ∀ i, i ∈ concat (memberIndices <$> st.1) → i ∈ st.2;
  aok_chunks : Forall (chunk_within comb chunk_limit) st.1
}.

(** Two windows, the first of three words; the similarity of a text with
    itself is 1, with any other text 1/2. *)
Definition demo_provider : EmbeddingProvider := table_provider (sim_eq 1 0.5).
Definition demo_comb : list string := ["a b c"; "d"]%string.

(** Three windows, the first two with the same text. *)
Definition three_comb : list string := ["a b"; "a b"; "d e f"]%string.

(** Six windows; windows 1 and 5 have the same text. *)
Definition six_comb : list string := ["a b c"; "d"; "e"; "f"; "g"; "d"]%string.

(** A chunk made of several windows was only ever extended within the limit. *)
Definition within_or_single (comb : list string) (chunk_limit : Z)
    (ms : list (nat * string)) : Prop :=
  members_of comb ms ∧ ((words_of ms ≤ chunk_limit)%Z ∨ length ms = 1).

(** ** Vocabulary for the anchor chunks *)

Section anchor_vocabulary.
Context `{P : EmbeddingProvider}.

(** The members of [c] are candidates of the ranking of an anchor [a], a
    multiple of the stride, in the order of that ranking. *)
Definition from_ranking (comb : list string) (anchor_stride : Z) (c : Chunk)
  : Prop :=
  ∃ (a : nat) (e_a : embedding) (r : list (nat * Q)),
    a < length comb ∧ (∃ k : nat, a = k * Z.to_nat anchor_stride)
    ∧ encode comb !! a = Some e_a
    ∧ r `sublist_of` ranked_for (encode comb) e_a
    ∧ memberIndices c = r.*1.

(** No window outside of [used] can be added to [c]: the text of [c] has
    [chunk_limit] words, or it would have more with the window. *)
Definition saturated (comb : list string) (chunk_limit : Z) (used : gset nat)
    (c : Chunk) : Prop :=
  Z.of_nat (word_count_of (text c)) = chunk_limit
  ∨ ∀ (i : nat) (w : string), comb !! i = Some w → i ∉ used →
      (chunk_limit < word_count_of (text c) + word_count_of w)%Z.

Record anchors_tight (comb : list string) (anchor_stride chunk_limit : Z)
    (st : list Chunk * gset nat) : Prop := AnchorsTight {
  tight_used : ∀ i, i ∈ st.2 → i ∈ concat (memberIndices <$> st.1);
  tight_rank : Forall (from_ranking comb anchor_stride) st.1;
  tight_full : Forall (saturated comb chunk_limit st.2) st.1
}.

End anchor_vocabulary.

(** The word count of the window at position [i], 0 past the end. *)
Definition words_at (comb : list string) (i : nat) : nat :=
  word_count_of (default EmptyString (comb !! i)).

(** The last character of [s] is no whitespace. *)
Fixpoint ends_with_text (s : string) : bool :=
  match s with
  | EmptyString => false
  | String c EmptyString => negb (is_space c)
  | String _ s' => ends_with_text s'
  end.

(** The characters of [s] that are no whitespace, in order. *)
Definition letters (s : string) : list ascii :=
  filter (λ c, is_space c = false) (list_ascii_of_string s).

(** ** Facts about the prelude *)

Lemma getitem_lookup {A} (l : list A) (i : nat) (x : A) :
  l !! i = Some x → getitem l i = Ok x.
Proof.
  intros Hl. unfold getitem.
  assert (Hn : (i <? 0)%Z = false) by (apply Z.ltb_ge; lia).
  by rewrite !Hn, Nat2Z.id, Hl.
Qed.

Lemma getitem_past_end {A} (l : list A) (i : nat) :
  length l ≤ i → getitem l i = Raise IndexError.
Proof.
  intros Hl. unfold getitem.
  assert (Hn : (i <? 0)%Z = false) by (apply Z.ltb_ge; lia).
  by rewrite !Hn, Nat2Z.id, (lookup_ge_None_2 l i Hl).
Qed.

Lemma getitem_Z {A} (l : list A) (i : Z) (x : A) :
  (0 ≤ i)%Z → l !! Z.to_nat i = Some x → getitem l i = Ok x.
Proof.
  intros Hi Hl. rewrite <- (Z2Nat.id i Hi). by apply getitem_lookup.
Qed.

Lemma string_app_assoc (a b c : string) : (a +:+ b) +:+ c = a +:+ (b +:+ c).
Proof.
  induction a as [|ch a IH]; [done|].
  change (String ch ((a +:+ b) +:+ c) = String ch (a +:+ (b +:+ c))).
  by rewrite IH.
Qed.

Lemma string_app_empty_r (a : string) : a +:+ EmptyString = a.
Proof.
  induction a as [|ch a IH]; [done|].
  change (String ch (a +:+ EmptyString) = String ch a). by rewrite IH.
Qed.

Lemma for_each_app {A S} (l1 l2 : list A) (s : S) body :
  for_each (l1 ++ l2) s body = (for_each l1 s body ≫= λ s', for_each l2 s' body).
Proof.
  revert s. induction l1 as [|x l1 IH]; intros s; [done|].
  cbn. destruct (body x s) as [s'|e]; cbn; [apply IH|done].
Qed.


Lemma enumerate_fst {A} (l : list A) : (enumerate l).*1 = seq 0 (length l).
Proof. unfold enumerate. apply fst_zip. by rewrite length_seq. Qed.

(** ** The window combiner: what [func] computes *)

Example func_abc :
  func (mk_sentences ["A."; "B."; "C."]%string) 1 = Ok ["A.B."; "A.B.C."; "B.C."]%string.
Proof. vm_compute. reflexivity. Qed.

Lemma glue_loop (sents : list SentenceRecord) (lo : Z) (c a : nat) (val : string) :
  (0 ≤ lo)%Z → Z.to_nat lo + a + c ≤ length sents →
  for_each ((λ k : nat, (lo + k)%Z) <$> seq a c) val
    (λ o v, r ← getitem sents o; mret (v +:+ sentences r))
  = Ok (val +:+ glue (sentences <$> take c (drop (Z.to_nat lo + a) sents))).
Proof.
  intros Hlo. revert a val. induction c as [|c IH]; intros a val Hlen.
  - cbn. by rewrite string_app_empty_r.
  - destruct (lookup_lt_is_Some_2 sents (Z.to_nat lo + a)) as [r Hr]; [lia|].
    cbn [seq fmap list_fmap for_each].
    rewrite (getitem_Z sents (lo + a) r); [|lia|].
    2:{ by replace (Z.to_nat (lo + a)) with (Z.to_nat lo + a) by lia. }
    cbn. rewrite IH by lia.
    rewrite (drop_S _ _ _ Hr). cbn.
    replace (Z.to_nat lo + S a) with (S (Z.to_nat lo + a)) by lia.
    by rewrite string_app_assoc.
Qed.

Lemma range_loop (sents : list SentenceRecord) (lo hi : Z) :
  (0 ≤ lo ≤ length sents)%Z → (hi ≤ length sents)%Z →
  for_each (range lo hi) EmptyString
    (λ o v, r ← getitem sents o; mret (v +:+ sentences r))
  = Ok (glue (span sents lo (hi - 1))).
Proof.
  intros Hlo Hhi. unfold range. rewrite glue_loop by lia.
  unfold span. rewrite Nat.add_0_r.
  by replace (hi - 1 + 1 - lo)%Z with (hi - lo)%Z by lia.
Qed.

Lemma func_window_spec (sents : list SentenceRecord) (b : Z) (i : nat) :
  (0 ≤ b)%Z → i < length sents →
  func_window sents b i = Ok (window_spec sents b i).
Proof.
  intros Hb Hi. unfold func_window, window_spec.
  rewrite range_loop by lia. cbn.
  rewrite range_loop by lia. cbn.
  replace (i - Z.min i b)%Z with (Z.max 0 (i - b)) by lia.
  replace (i + 1 - 1)%Z with (Z.of_nat i) by lia.
  by replace (Z.min (length sents) (b + 1 + i) - 1)%Z
    with (Z.min (length sents - 1) (i + b)) by lia.
Qed.

Lemma func_loop (sents : list SentenceRecord) (b : Z) (l : list SentenceRecord)
    (a : nat) (acc : list string) :
  (0 ≤ b)%Z → a + length l ≤ length sents →
  for_each (zip (seq a (length l)) l) acc
    (λ '(index, value) combined,
       k ← func_window sents b index; mret (combined ++ [k]))
  = Ok (acc ++ (window_spec sents b <$> seq a (length l))).
Proof.
  intros Hb. revert a acc. induction l as [|x l IH]; intros a acc Hlen.
  - cbn. by rewrite app_nil_r.
  - cbn in Hlen. cbn. rewrite func_window_spec by lia. cbn.
    rewrite IH by lia. by rewrite <- app_assoc.
Qed.

Lemma func_spec (sents : list SentenceRecord) (b : Z) :
  (0 ≤ b)%Z → func sents b = Ok (window_spec sents b <$> seq 0 (length sents)).
Proof.
  intros Hb. unfold func, enumerate.
  by rewrite (func_loop sents b sents 0 []) by (done || lia).
Qed.

Lemma window_spec_0 (sents : list SentenceRecord) (i : nat) (r : SentenceRecord) :
  sents !! i = Some r → window_spec sents 0 i = sentences r.
Proof.
  intros Hr. pose proof (lookup_lt_Some _ _ _ Hr) as Hi.
  unfold window_spec, span.
  replace (Z.to_nat (i + 1 - Z.max 0 (i - 0))) with 1 by lia.
  replace (Z.to_nat (Z.max 0 (i - 0))) with i by lia.
  replace (Z.to_nat (Z.min (length sents - 1) (i + 0) + 1 - (i + 1))) with 0 by lia.
  rewrite (drop_S _ _ _ Hr). cbn.
  by rewrite !string_app_empty_r.
Qed.

(** C5. For a non-negative [bufferSize], [func] returns as many windows as
    there are sentences; window [i] is the text of the sentences at positions
    [max(0, i - bufferSize) .. i] followed by those at positions
    [i + 1 .. min(len - 1, i + bufferSize)], with no separator.  With
    [bufferSize = 0] each window is its sentence, and the sentences
    "A.", "B.", "C." with [bufferSize = 1] give "A.B.", "A.B.C.", "B.C.". *)
Theorem func_contract (sents : list SentenceRecord) (bufferSize : Z) :
  (0 ≤ bufferSize)%Z →
  ∃ windows,
    func sents bufferSize = Ok windows
    ∧ length windows = length sents
    ∧ (∀ i, i < length sents →
         windows !! i = Some (window_spec sents bufferSize i))
    ∧ (bufferSize = 0%Z → windows = sentences <$> sents)
    ∧ func (mk_sentences ["A."; "B."; "C."]%string) 1
      = Ok ["A.B."; "A.B.C."; "B.C."]%string.
Proof.
  intros Hb. exists (window_spec sents bufferSize <$> seq 0 (length sents)).
  split_and!.
  - by apply func_spec.
  - by rewrite length_fmap, length_seq.
  - intros i Hi. rewrite list_lookup_fmap, lookup_seq_lt by done. done.
  - intros ->. apply list_eq. intros i.
    rewrite !list_lookup_fmap.
    destruct (sents !! i) as [r|] eqn:Hr; cbn.
    + rewrite lookup_seq_lt by (by eapply lookup_lt_Some). cbn.
      f_equal. by apply window_spec_0.
    + apply lookup_ge_None in Hr.
      by rewrite lookup_seq_ge by done.
  - vm_compute. reflexivity.
Qed.

Lemma func_contract_witness :
  ∃ windows,
    func (mk_sentences ["One. "; "Two. "; "Three. "; "Four."]%string) 2 = Ok windows
    ∧ length windows = 4
    ∧ (∀ i, i < 4 →
         windows !! i = Some (window_spec
           (mk_sentences ["One. "; "Two. "; "Three. "; "Four."]%string) 2 i))
    ∧ (2%Z = 0%Z → windows = ["One. "; "Two. "; "Three. "; "Four."]%string)
    ∧ func (mk_sentences ["A."; "B."; "C."]%string) 1
      = Ok ["A.B."; "A.B.C."; "B.C."]%string.
Proof.
  apply (func_contract (mk_sentences ["One. "; "Two. "; "Three. "; "Four."]%string) 2).
  lia.
Defined.

(** ** The sequential chunker: loop invariant *)

Lemma members_of_app comb ms1 ms2 :
  members_of comb ms1 → members_of comb ms2 → members_of comb (ms1 ++ ms2).
Proof. unfold members_of. rewrite Forall_app. done. Qed.

Lemma words_of_app ms1 ms2 : words_of (ms1 ++ ms2) = words_of ms1 + words_of ms2.
Proof. apply sum_list_with_app. Qed.

Lemma words_of_singleton i c : words_of [(i, c)] = word_count_of c.
Proof. unfold words_of. cbn [sum_list_with snd]. lia. Qed.

Lemma Qltb_lt (x y : Q) : Qltb x y = true ↔ (x < y)%Q.
Proof.
  unfold Qltb. rewrite negb_true_iff, <- not_true_iff_false, Qle_bool_iff.
  split; [apply Qnot_le_lt | apply Qlt_not_le].
Qed.

Lemma Qltb_ge (x y : Q) : Qltb x y = false ↔ (y <= x)%Q.
Proof.
  unfold Qltb. rewrite negb_false_iff. apply Qle_bool_iff.
Qed.

Lemma merge_test_true `{P : EmbeddingProvider} threshold chunk_limit sim cur next :
  merge_test threshold chunk_limit sim cur next = true
  ↔ (round_threshold threshold < sim)%Q ∧ (cur + next ≤ chunk_limit)%Z.
Proof.
  unfold merge_test. rewrite andb_true_iff, Qltb_lt, Z.leb_le. done.
Qed.

(** The conversion of the threshold is monotone and keeps a similarity: a
    similarity that is not above the threshold is not above the converted
    threshold either. *)
Lemma round_threshold_above `{P : EmbeddingProvider} threshold e e' :
  (cosine_similarity e e' <= threshold)%Q →
  (cosine_similarity e e' <= round_threshold threshold)%Q.
Proof.
  intros Hle. eapply Qle_trans; [|apply round_threshold_mono, Hle].
  apply Qle_lteq. right. symmetry. apply cosine_similarity_rounded.
Qed.

Lemma merge_test_below `{P : EmbeddingProvider} threshold chunk_limit e e' cur next :
  (cosine_similarity e e' <= threshold)%Q →
  merge_test threshold chunk_limit (cosine_similarity e e') cur next = false.
Proof.
  intros Hle. unfold merge_test. apply andb_false_iff. left.
  apply Qltb_ge. by apply round_threshold_above.
Qed.

Section sequential.
Context `{P : EmbeddingProvider}.
Implicit Types (comb : list string) (embeddings : list embedding).
Implicit Types (threshold : Q) (chunk_limit : Z) (st : seq_state).

Lemma semantic_chunking_loop_S comb embeddings threshold chunk_limit k :
  semantic_chunking_loop comb embeddings threshold chunk_limit (S k)
  = (semantic_chunking_loop comb embeddings threshold chunk_limit k
       ≫= semantic_chunking_body comb embeddings threshold chunk_limit (S k)).
Proof.
  unfold semantic_chunking_loop.
  destruct (getitem comb 0%nat) as [c_0|e]; [|reflexivity].
  cbn [mbind result_bind]. rewrite seq_S, for_each_app. cbn [for_each].
  destruct (for_each _ _ _) as [st|e]; [|reflexivity]. cbn.
  destruct (semantic_chunking_body _ _ _ _ _ _); reflexivity.
Qed.

Lemma semantic_chunking_body_eq comb embeddings threshold chunk_limit i st
    e_i e_prev c_i :
  embeddings !! S i = Some e_i → embeddings !! i = Some e_prev →
  comb !! S i = Some c_i →
  semantic_chunking_body comb embeddings threshold chunk_limit (S i) st
  = Ok (if merge_test threshold chunk_limit (cosine_similarity e_i e_prev)
             (current_len st) (word_count_of c_i)
        then SeqState (chunks st) (current_chunk st ++ [(S i, c_i)])
               (current_len st + word_count_of c_i)
        else SeqState (chunks st ++ [emit (current_chunk st)]) [(S i, c_i)]
               (word_count_of c_i)).
Proof.
  intros He Hp Hc. unfold semantic_chunking_body.
  rewrite (getitem_lookup _ _ _ He). cbn [mbind result_bind].
  replace (S i - 1)%Z with (Z.of_nat i) by lia.
  rewrite (getitem_lookup _ _ _ Hp). cbn [mbind result_bind].
  rewrite (getitem_lookup _ _ _ Hc). cbn [mbind result_bind].
  by destruct (merge_test _ _ _ _ _).
Qed.

Lemma seq_inv_step comb threshold chunk_limit k st sim c :
  comb !! S k = Some c → seq_inv comb k st →
  seq_inv comb (S k)
    (if merge_test threshold chunk_limit sim (current_len st) (word_count_of c)
     then SeqState (chunks st) (current_chunk st ++ [(S k, c)])
            (current_len st + word_count_of c)
     else SeqState (chunks st ++ [emit (current_chunk st)]) [(S k, c)]
            (word_count_of c)).
Proof.
  intros Hc [Hcov Hlast Hlen Hmem Hch].
  destruct (merge_test _ _ _ _ _); constructor; cbn -[seq words_of].
  - rewrite fmap_app, app_assoc, Hcov. by rewrite (seq_S (S k)).
  - rewrite fmap_app. apply last_snoc.
  - by rewrite words_of_app, Hlen, words_of_singleton.
  - apply members_of_app; [done|]. by constructor.
  - done.
  - rewrite fmap_app, concat_app. cbn -[seq]. rewrite app_nil_r, Hcov.
    by rewrite (seq_S (S k)).
  - done.
  - by rewrite words_of_singleton.
  - by constructor.
  - rewrite Forall_app. split; [done|]. constructor; [|done].
    exists (current_chunk st). split_and!; [done| |done].
    intros Hnil. by rewrite Hnil in Hlast.
Qed.

Lemma semantic_chunking_loop_inv comb embeddings threshold chunk_limit k :
  length embeddings = length comb → k < length comb →
  ∃ st, semantic_chunking_loop comb embeddings threshold chunk_limit k = Ok st
        ∧ seq_inv comb k st.
Proof.
  intros Hemb. induction k as [|k IH]; intros Hk.
  - destruct (lookup_lt_is_Some_2 comb 0 Hk) as [c_0 Hc].
    unfold semantic_chunking_loop. rewrite (getitem_lookup _ _ _ Hc). cbn.
    eexists. split; [done|]. constructor; cbn -[words_of]; try done.
    by repeat constructor.
  - destruct IH as (st & Hst & Hinv); [lia|].
    destruct (lookup_lt_is_Some_2 comb (S k) Hk) as [c Hc].
    destruct (lookup_lt_is_Some_2 embeddings (S k)) as [e_i He]; [lia|].
    destruct (lookup_lt_is_Some_2 embeddings k) as [e_p Hp]; [lia|].
    rewrite semantic_chunking_loop_S, Hst. cbn [mbind result_bind].
    rewrite (semantic_chunking_body_eq _ _ _ _ _ _ _ _ _ He Hp Hc).
    eexists. split; [done|]. by apply seq_inv_step.
Qed.

End sequential.

(** ** Lists of groups *)

Lemma elem_of_concat {A} (x : A) (gs : list (list A)) :
  x ∈ concat gs ↔ ∃ g, g ∈ gs ∧ x ∈ g.
Proof.
  induction gs as [|g0 gs IH]; cbn.
  - split; [by intros ?%elem_of_nil | by intros (g & ?%elem_of_nil & _)].
  - rewrite elem_of_app, IH. split.
    + intros [Hx|(g & Hg & Hx)]; [exists g0 | exists g]; split; try done.
      * by left.
      * by right.
    + intros (g & Hg & Hx). apply elem_of_cons in Hg as [->|Hg]; [by left|].
      right. by exists g.
Qed.

(** In a duplicate-free concatenation an element lies in one group only. *)
Lemma concat_NoDup_unique {A} (gs : list (list A)) (p q : nat) (g g' : list A) x :
  NoDup (concat gs) → gs !! p = Some g → gs !! q = Some g' →
  x ∈ g → x ∈ g' → p = q.
Proof.
  revert p q. induction gs as [|g0 gs IH]; intros p q Hnd Hp Hq Hx Hx'; [done|].
  cbn in Hnd. apply NoDup_app in Hnd as (_ & Hdisj & Hnd).
  destruct p as [|p], q as [|q]; cbn in Hp, Hq; simplify_eq.
  - done.
  - exfalso. apply (Hdisj x Hx). apply elem_of_concat. exists g'.
    split; [|done]. by eapply list_elem_of_lookup_2.
  - exfalso. apply (Hdisj x Hx'). apply elem_of_concat. exists g.
    split; [|done]. by eapply list_elem_of_lookup_2.
  - f_equal. by eapply IH.
Qed.

Lemma chunk_wf_nonempty comb c : chunk_wf comb c → memberIndices c ≠ [].
Proof. intros (ms & -> & Hne & _). cbn. by destruct ms. Qed.

Lemma chunk_wf_lt comb c i : chunk_wf comb c → i ∈ memberIndices c → i < length comb.
Proof.
  intros (ms & -> & _ & Hms) Hi. cbn in Hi.
  apply list_elem_of_fmap in Hi as ([j s] & -> & Hin).
  unfold members_of in Hms. rewrite Forall_forall in Hms.
  specialize (Hms _ Hin). cbn in *. by eapply lookup_lt_Some.
Qed.

Section sequential_results.
Context `{P : EmbeddingProvider}.
Implicit Types (comb : list string) (threshold : Q) (chunk_limit : option Z).

Lemma semantic_chunking_Ok comb threshold chunk_limit :
  comb ≠ [] →
  ∃ st,
    semantic_chunking_loop comb (encode comb) threshold (default 512%Z chunk_limit)
      (length comb - 1) = Ok st
    ∧ seq_inv comb (length comb - 1) st
    ∧ outcome (semantic_chunking comb threshold chunk_limit)
      = Ok (chunks st ++ [emit (current_chunk st)]).
Proof.
  intros Hne.
  assert (0 < length comb) as Hlen by (destruct comb; [done | cbn; lia]).
  destruct (semantic_chunking_loop_inv comb (encode comb) threshold
              (default 512%Z chunk_limit) (length comb - 1)) as (st & Hst & Hinv);
    [apply encode_length | lia |].
  exists st. split_and!; [done..|].
  cbn. by rewrite Hst.
Qed.

(** C1. On a non-empty window sequence the sequential chunker returns chunks
    whose member indices, concatenated in emission order, are exactly
    [0, 1, ..., n-1]: each window lies in one chunk and one only, chunks come
    in document order, every chunk is the join of a non-empty list of windows,
    and the first chunk starts with window 0. *)
Theorem sequential_partition comb threshold chunk_limit :
  comb ≠ [] →
  ∃ chunks_out,
    outcome (semantic_chunking comb threshold chunk_limit) = Ok chunks_out
    ∧ concat (memberIndices <$> chunks_out) = seq 0 (length comb)
    ∧ Forall (chunk_wf comb) chunks_out
    ∧ (∀ i, i < length comb →
         ∃ p c, chunks_out !! p = Some c ∧ i ∈ memberIndices c
                ∧ ∀ q c', chunks_out !! q = Some c' → i ∈ memberIndices c' → q = p)
    ∧ ∃ first rest, chunks_out = first :: rest ∧ head (memberIndices first) = Some 0.
Proof.
  intros Hne.
  destruct (semantic_chunking_Ok comb threshold chunk_limit Hne)
    as (st & _ & [Hcov Hlast Hlen Hmem Hch] & Hout).
  assert (0 < length comb) as Hpos by (destruct comb; [done | cbn; lia]).
  replace (S (length comb - 1)) with (length comb) in Hcov by lia.
  set (chunks_out := chunks st ++ [emit (current_chunk st)]) in *.
  assert (Hcat : concat (memberIndices <$> chunks_out) = seq 0 (length comb)).
  { unfold chunks_out. rewrite fmap_app, concat_app. cbn. by rewrite app_nil_r. }
  assert (Hwf : Forall (chunk_wf comb) chunks_out).
  { unfold chunks_out. rewrite Forall_app. split; [done|].
    constructor; [|done]. exists (current_chunk st). split_and!; [done| |done].
    intros Hnil. by rewrite Hnil in Hlast. }
  exists chunks_out. split_and!; [done..| |].
  - intros i Hi.
    assert (i ∈ concat (memberIndices <$> chunks_out)) as Hin.
    { rewrite Hcat. apply elem_of_seq. lia. }
    apply elem_of_concat in Hin as (g & Hg & Hig).
    apply list_elem_of_fmap in Hg as (c & -> & Hc).
    apply list_elem_of_lookup in Hc as (p & Hp).
    exists p, c. split_and!; [done..|].
    intros q c' Hq Hic'.
    eapply (concat_NoDup_unique (memberIndices <$> chunks_out) q p).
    + rewrite Hcat. apply NoDup_seq.
    + by rewrite list_lookup_fmap, Hq.
    + by rewrite list_lookup_fmap, Hp.
    + done.
    + done.
  - destruct chunks_out as [|first rest] eqn:Hco.
    { cbn in Hcat. destruct (length comb); [lia | done]. }
    exists first, rest. split; [done|].
    apply Forall_cons in Hwf as [Hfirst _]. apply chunk_wf_nonempty in Hfirst.
    cbn in Hcat. destruct (memberIndices first) as [|x xs]; [done|].
    destruct (length comb) as [|n]; [lia|]. cbn in Hcat. by simplify_eq.
Qed.

End sequential_results.

(** ** The sequential chunker: what a later round can do to a state *)

Section sequential_rule.
Context `{P : EmbeddingProvider}.
Implicit Types (comb : list string) (embeddings : list embedding).
Implicit Types (threshold : Q) (chunk_limit : Z) (st : seq_state).

Lemma semantic_chunking_body_cases comb embeddings threshold chunk_limit i st st' :
  semantic_chunking_body comb embeddings threshold chunk_limit i st = Ok st' →
  ∃ c n,
    st' = SeqState (chunks st) (current_chunk st ++ [(i, c)]) n
    ∨ st' = SeqState (chunks st ++ [emit (current_chunk st)]) [(i, c)] n.
Proof.
  unfold semantic_chunking_body.
  destruct (getitem embeddings i) as [e_i|]; [|done]. cbn [mbind result_bind].
  destruct (getitem embeddings (i - 1)%Z) as [e_p|]; [|done]. cbn [mbind result_bind].
  destruct (getitem comb i) as [c|]; [|done]. cbn [mbind result_bind].
  destruct (merge_test _ _ _ _ _); intros [= <-]; eauto.
Qed.

Lemma for_each_extends comb embeddings threshold chunk_limit l st st' :
  for_each l st (semantic_chunking_body comb embeddings threshold chunk_limit)
  = Ok st' →
  (∃ xs rest, groups_of st'
     = (memberIndices <$> chunks st) ++ ((current_chunk st).*1 ++ xs) :: rest)
  ∧ chunks st `prefix_of` chunks st'.
Proof.
  revert st. induction l as [|i l IH]; intros st Hrun; cbn in Hrun.
  - simplify_eq. split; [|done]. exists [], []. by rewrite app_nil_r.
  - destruct (semantic_chunking_body _ _ _ _ i st) as [st2|] eqn:Hbody; [|done].
    cbn in Hrun. destruct (IH _ Hrun) as ((xs & rest & Hg) & Hpre).
    apply semantic_chunking_body_cases in Hbody as (c & n & [->| ->]);
      cbn in Hg, Hpre.
    + split; [|done]. exists (i :: xs), rest.
      by rewrite Hg, fmap_app, <- app_assoc.
    + split.
      * exists [], (([i] ++ xs) :: rest).
        by rewrite Hg, fmap_app, <- app_assoc, app_nil_r.
      * etrans; [|done]. by apply prefix_app_r.
Qed.

Lemma semantic_chunking_loop_add comb embeddings threshold chunk_limit k m :
  semantic_chunking_loop comb embeddings threshold chunk_limit (k + m)
  = (semantic_chunking_loop comb embeddings threshold chunk_limit k
       ≫= λ st, for_each (seq (S k) m) st
                  (semantic_chunking_body comb embeddings threshold chunk_limit)).
Proof.
  unfold semantic_chunking_loop.
  destruct (getitem comb 0%nat) as [c_0|e]; [|reflexivity].
  cbn [mbind result_bind]. by rewrite seq_app, for_each_app.
Qed.

End sequential_rule.

Section sequential_merge.
Context `{P : EmbeddingProvider}.
Implicit Types (comb : list string) (threshold : Q) (chunk_limit : option Z).

(** Round [i] of the loop, and what the chunks that are returned in the end
    keep of it: the outcome of [merge_test] at [i] decides whether windows
    [i - 1] and [i] share a chunk. *)
Lemma semantic_chunking_round comb threshold chunk_limit (i : nat) :
  1 ≤ i < length comb →
  let limit := default 512%Z chunk_limit in
  let embeddings := encode comb in
  ∃ st e_i e_prev c_i chunks_out,
    semantic_chunking_loop comb embeddings threshold limit (i - 1) = Ok st
    ∧ embeddings !! i = Some e_i ∧ embeddings !! (i - 1) = Some e_prev
    ∧ comb !! i = Some c_i
    ∧ last (current_chunk st).*1 = Some (i - 1)
    ∧ current_len st = words_of (current_chunk st)
    ∧ outcome (semantic_chunking comb threshold chunk_limit) = Ok chunks_out
    ∧ if merge_test threshold limit (cosine_similarity e_i e_prev)
           (current_len st) (word_count_of c_i)
      then
        semantic_chunking_loop comb embeddings threshold limit i
        = Ok (SeqState (chunks st) (current_chunk st ++ [(i, c_i)])
                (current_len st + word_count_of c_i))
        ∧ ∃ c, c ∈ chunks_out ∧ i - 1 ∈ memberIndices c ∧ i ∈ memberIndices c
      else
        semantic_chunking_loop comb embeddings threshold limit i
        = Ok (SeqState (chunks st ++ [emit (current_chunk st)]) [(i, c_i)]
                (word_count_of c_i))
        ∧ emit (current_chunk st) ∈ chunks_out
        ∧ (∃ c, c ∈ chunks_out ∧ head (memberIndices c) = Some i)
        ∧ ¬ ∃ c, c ∈ chunks_out ∧ i - 1 ∈ memberIndices c ∧ i ∈ memberIndices c.
Proof.
  intros [Hi1 Hin] limit embeddings.
  destruct i as [|j]; [lia|]. clear Hi1.
  replace (S j - 1) with j by lia.
  assert (Hemb : length embeddings = length comb) by apply encode_length.
  destruct (semantic_chunking_loop_inv comb embeddings threshold limit j)
    as (st & Hst & [Hcov Hlast Hlen Hmem Hch]); [done | lia |].
  destruct (lookup_lt_is_Some_2 comb (S j) Hin) as [c_i Hc].
  destruct (lookup_lt_is_Some_2 embeddings (S j)) as [e_i He]; [lia|].
  destruct (lookup_lt_is_Some_2 embeddings j) as [e_p Hp]; [lia|].
  assert (Hne : comb ≠ []) by (intros ->; cbn in Hin; lia).
  destruct (semantic_chunking_Ok comb threshold chunk_limit Hne)
    as (stf & Hstf & [Hcovf _ _ _ _] & Hout).
  fold limit embeddings in Hstf.
  replace (S (length comb - 1)) with (length comb) in Hcovf by lia.
  (* the state after round [i], and the rounds that follow it *)
  pose proof (semantic_chunking_loop_S comb embeddings threshold limit j) as HS.
  rewrite Hst in HS. cbn [mbind result_bind] in HS.
  rewrite (semantic_chunking_body_eq _ _ _ _ _ _ _ _ _ He Hp Hc) in HS.
  replace (length comb - 1) with (S j + (length comb - 1 - S j)) in Hstf by lia.
  rewrite semantic_chunking_loop_add, HS in Hstf. cbn [mbind result_bind] in Hstf.
  apply for_each_extends in Hstf as ((xs & rest & Hg) & Hpre).
  assert (Hgroups : memberIndices <$> (chunks stf ++ [emit (current_chunk stf)])
                    = groups_of stf).
  { unfold groups_of. by rewrite fmap_app. }
  assert (Hnd : NoDup (concat (groups_of stf))).
  { unfold groups_of. rewrite concat_app. cbn. rewrite app_nil_r, Hcovf.
    apply NoDup_seq. }
  assert (Hj : j ∈ (current_chunk st).*1).
  { apply last_Some in Hlast as [l' ->].
    apply elem_of_app. right. apply elem_of_cons. by left. }
  exists st, e_i, e_p, c_i, (chunks stf ++ [emit (current_chunk stf)]).
  split_and!; [done..|].
  destruct (merge_test threshold limit (cosine_similarity e_i e_p)
              (current_len st) (word_count_of c_i)) eqn:Htest;
    cbn in Hg, Hpre.
  - split; [done|].
    assert ((current_chunk st ++ [(S j, c_i)]).*1 ++ xs ∈ groups_of stf) as Hel.
    { rewrite Hg. apply elem_of_app. right. apply elem_of_cons. by left. }
    rewrite <- Hgroups in Hel.
    apply list_elem_of_fmap in Hel as (c & Hc' & Hcin).
    exists c. split; [done|]. rewrite <- Hc', fmap_app, !elem_of_app.
    split; [by do 2 left|]. left. right. apply elem_of_cons. by left.
  - split; [done|].
    assert (Hlk1 : groups_of stf !! length (chunks st)
                   = Some (current_chunk st).*1).
    { rewrite Hg, fmap_app, <- app_assoc.
      apply list_lookup_middle. by rewrite length_fmap. }
    assert (Hlk2 : groups_of stf !! S (length (chunks st))
                   = Some (S j :: xs)).
    { rewrite Hg. apply list_lookup_middle.
      rewrite length_fmap, length_app. cbn. lia. }
    split_and!.
    + apply elem_of_app. left.
      eapply elem_of_prefix; [|done].
      apply elem_of_app. right. apply elem_of_cons. by left.
    + rewrite <- Hgroups in Hlk2. rewrite list_lookup_fmap in Hlk2.
      destruct ((chunks stf ++ [emit (current_chunk stf)]) !! S (length (chunks st)))
        as [c|] eqn:Hlk; [|done].
      exists c. split; [by eapply list_elem_of_lookup_2|].
      cbn in Hlk2. injection Hlk2 as Hmi. by rewrite Hmi.
    + intros (c & Hcin & Hj' & Hi').
      apply list_elem_of_lookup in Hcin as (p & Hp').
      assert (groups_of stf !! p = Some (memberIndices c)) as Hgp.
      { by rewrite <- Hgroups, list_lookup_fmap, Hp'. }
      assert (p = length (chunks st)) as ->.
      { exact (concat_NoDup_unique _ _ _ _ _ j Hnd Hgp Hlk1 Hj' Hj). }
      assert (length (chunks st) = S (length (chunks st))); [|lia].
      refine (concat_NoDup_unique _ _ _ _ _ (S j) Hnd Hgp Hlk2 Hi' _).
      apply elem_of_cons. by left.
Qed.

(** C3, as the code has it.  When the loop of the sequential chunker reaches
    a position [i >= 1], the chunk under construction ends with window
    [i - 1] and [current_len] is its accumulated word count.  The similarity that is
    tested is the one of [embeddings[i]] and [embeddings[i - 1]].  If it is
    strictly above the threshold as the comparison takes it, converted to
    the precision of the similarity, and the accumulated count plus the word
    count of window [i] stays within the limit, window [i] is appended to
    that chunk, and the chunk that is finally emitted holds both [i - 1] and
    [i].  Otherwise the chunk under construction is emitted as it is and a
    new one is started that holds window [i] only; no emitted chunk then
    holds both. *)
Theorem sequential_merge_rule comb threshold chunk_limit (i : nat) :
  1 ≤ i < length comb →
  let limit := default 512%Z chunk_limit in
  let embeddings := encode comb in
  ∃ st e_i e_prev c_i chunks_out,
    semantic_chunking_loop comb embeddings threshold limit (i - 1) = Ok st
    ∧ embeddings !! i = Some e_i ∧ embeddings !! (i - 1) = Some e_prev
    ∧ comb !! i = Some c_i
    ∧ last (current_chunk st).*1 = Some (i - 1)
    ∧ current_len st = words_of (current_chunk st)
    ∧ outcome (semantic_chunking comb threshold chunk_limit) = Ok chunks_out
    ∧ let merge := (round_threshold threshold < cosine_similarity e_i e_prev)%Q
                   ∧ (current_len st + word_count_of c_i ≤ limit)%Z in
      (merge →
         semantic_chunking_loop comb embeddings threshold limit i
         = Ok (SeqState (chunks st) (current_chunk st ++ [(i, c_i)])
                 (current_len st + word_count_of c_i))
         ∧ ∃ c, c ∈ chunks_out ∧ i - 1 ∈ memberIndices c ∧ i ∈ memberIndices c)
      ∧ (¬ merge →
         semantic_chunking_loop comb embeddings threshold limit i
         = Ok (SeqState (chunks st ++ [emit (current_chunk st)]) [(i, c_i)]
                 (word_count_of c_i))
         ∧ emit (current_chunk st) ∈ chunks_out
         ∧ (∃ c, c ∈ chunks_out ∧ head (memberIndices c) = Some i)
         ∧ ¬ ∃ c, c ∈ chunks_out ∧ i - 1 ∈ memberIndices c ∧ i ∈ memberIndices c).
Proof.
  intros Hi limit embeddings.
  destruct (semantic_chunking_round comb threshold chunk_limit i Hi)
    as (st & e_i & e_p & c_i & chunks_out
        & Hst & He & Hp & Hc & Hlast & Hlen & Hout & Hround).
  fold limit embeddings in Hst, He, Hp, Hround.
  exists st, e_i, e_p, c_i, chunks_out.
  split_and!; [done..|].
  cbv zeta. rewrite <- merge_test_true.
  destruct (merge_test threshold limit (cosine_similarity e_i e_p)
              (current_len st) (word_count_of c_i));
    split; intros Hm; done.
Qed.

End sequential_merge.

(** ** The stable sort *)

Section sorting.
Context {A : Type} (key : A → Q) (pos : A → nat).

Lemma insert_by_perm (x : A) (l : list A) : insert_by key x l ≡ₚ x :: l.
Proof.
  induction l as [|y l IH]; [done|]. cbn.
  destruct (Qltb (key y) (key x)); [|done].
  rewrite IH. apply Permutation_swap.
Qed.

Lemma sorted_perm (l : list A) : sorted key l ≡ₚ l.
Proof.
  induction l as [|x l IH]; [done|]. cbn. fold (sorted key l).
  by rewrite insert_by_perm, IH.
Qed.

Lemma insert_by_sorted (x : A) (l : list A) :
  StronglySorted (stable_le key pos) l → Forall (λ y, pos x < pos y) l →
  StronglySorted (stable_le key pos) (insert_by key x l).
Proof.
  induction l as [|y l IH]; intros Hs Hpos; cbn.
  - repeat constructor.
  - apply StronglySorted_inv in Hs as [Hs Hy].
    apply Forall_cons in Hpos as [Hxy Hpos].
    destruct (Qltb (key y) (key x)) eqn:Hlt.
    + apply Qltb_lt in Hlt. constructor; [by apply IH|].
      rewrite insert_by_perm. constructor; [by left|done].
    + apply Qltb_ge in Hlt. constructor; [by constructor|].
      constructor.
      * destruct (Qlt_le_dec (key x) (key y)) as [?|Hge]; [by left|].
        right. split; [by apply Qle_antisym|done].
      * rewrite Forall_forall in Hy, Hpos. apply Forall_forall.
        intros z Hz. specialize (Hy z Hz). specialize (Hpos z Hz).
        destruct Hy as [Hyz|[Hyz _]].
        -- left. eapply Qle_lt_trans; done.
        -- destruct (Qlt_le_dec (key x) (key z)) as [?|Hge]; [by left|].
           right. split; [|done]. apply Qle_antisym; [|done].
           by rewrite <- Hyz.
Qed.

Lemma sorted_stable (l : list A) :
  StronglySorted (λ a b, pos a < pos b) l → StronglySorted (stable_le key pos) (sorted key l).
Proof.
  induction l as [|x l IH]; intros Hs; [constructor|].
  apply StronglySorted_inv in Hs as [Hs Hx].
  cbn. fold (sorted key l). apply insert_by_sorted; [by apply IH|].
  by rewrite sorted_perm.
Qed.

End sorting.


Lemma enumerate_sorted {A} (l : list A) :
  StronglySorted (λ a b : nat * A, a.1 < b.1) (enumerate l).
Proof.
  unfold enumerate. generalize 0 as a.
  induction l as [|x l IH]; intros a; cbn; constructor; [apply IH|].
  apply Forall_forall. intros [j y] Hin. cbn.
  apply elem_of_zip_l, elem_of_seq in Hin. lia.
Qed.

(** ** The ranking of an anchor *)

Section ranking.
Context `{P : EmbeddingProvider}.
Implicit Types (embeddings : list embedding) (anchor_emb : embedding).

Lemma ranked_for_perm embeddings anchor_emb :
  ranked_for embeddings anchor_emb
  ≡ₚ enumerate (cosine_similarity anchor_emb <$> embeddings).
Proof. apply sorted_perm. Qed.

Lemma ranked_for_indices embeddings anchor_emb :
  (ranked_for embeddings anchor_emb).*1 ≡ₚ seq 0 (length embeddings).
Proof. by rewrite ranked_for_perm, enumerate_fst, length_fmap. Qed.


Lemma ranked_for_sorted embeddings anchor_emb :
  StronglySorted ranks_before (ranked_for embeddings anchor_emb).
Proof.
  pose proof (sorted_stable (λ x : nat * Q, - x.2)%Q fst
    (enumerate (cosine_similarity anchor_emb <$> embeddings))
    (enumerate_sorted _)) as Hs.
  fold (ranked_for embeddings anchor_emb) in Hs.
  induction Hs as [|x l Hs IH Hx]; constructor; [done|].
  eapply Forall_impl; [done|]. intros y [Hlt|[Heq Hpos]]; cbn in *.
  - left. lra.
  - right. split; [lra|done].
Qed.

End ranking.

(** ** The scan of one anchor *)

Lemma scan_body_used comb chunk_limit idx sim st :
  idx ∈ used st → scan_body comb chunk_limit (idx, sim) st = Ok (Continue st).
Proof. intros Hu. unfold scan_body. by rewrite decide_True. Qed.

Lemma scan_body_unused comb chunk_limit idx sim st c :
  idx ∉ used st → comb !! idx = Some c →
  scan_body comb chunk_limit (idx, sim) st
  = Ok (let st' := if (word_count st + word_count_of c <=? chunk_limit)%Z
                   then accept st idx c else st in
        if (chunk_limit <=? word_count st')%Z then Break st' else Continue st').
Proof.
  intros Hu Hc. unfold scan_body. rewrite decide_False by done.
  rewrite (getitem_lookup _ _ _ Hc). cbn [mbind result_bind]. fold (accept st idx c).
  cbv zeta. by destruct (chunk_limit <=? _)%Z.
Qed.

Lemma scan_ok_init comb chunk_limit used0 :
  scan_ok comb chunk_limit used0 (ScanState [] used0 0).
Proof.
  constructor; cbn.
  - constructor.
  - by intros i ?%elem_of_nil.
  - set_solver.
  - done.
  - constructor.
  - done.
Qed.

Lemma scan_ok_accept comb chunk_limit used0 st idx c :
  scan_ok comb chunk_limit used0 st → idx ∉ used st → comb !! idx = Some c →
  (word_count st + word_count_of c ≤ chunk_limit)%Z →
  scan_ok comb chunk_limit used0 (accept st idx c).
Proof.
  intros [Hnd Hfresh Hused Hcount Hmem Hbud] Hu Hc Hle.
  rewrite Hused in Hu. apply not_elem_of_union in Hu as [Hu1 Hu2].
  rewrite elem_of_list_to_set in Hu1.
  constructor; cbn -[words_of].
  - rewrite fmap_app. apply NoDup_app. split_and!; [done| |apply NoDup_singleton].
    intros i Hi ->%list_elem_of_singleton. done.
  - intros i. rewrite fmap_app, elem_of_app.
    intros [Hi| ->%list_elem_of_singleton]; [by apply Hfresh|done].
  - rewrite Hused, fmap_app, list_to_set_app_L. cbn. set_solver.
  - by rewrite words_of_app, words_of_singleton, Hcount.
  - apply members_of_app; [done|]. by constructor.
  - intros _. lia.
Qed.

Lemma scan_body_ok comb chunk_limit used0 st idx sim :
  scan_ok comb chunk_limit used0 st → idx < length comb →
  ∃ f, scan_body comb chunk_limit (idx, sim) st = Ok f
       ∧ scan_ok comb chunk_limit used0 (flow_state f)
       ∧ chunk st `prefix_of` chunk (flow_state f).
Proof.
  intros Hok Hidx. destruct (decide (idx ∈ used st)) as [Hu|Hu].
  - exists (Continue st). by rewrite scan_body_used.
  - destruct (lookup_lt_is_Some_2 comb idx Hidx) as [c Hc].
    rewrite (scan_body_unused _ _ _ _ _ _ Hu Hc). eexists. split; [done|].
    cbv zeta. destruct (Z.leb_spec (word_count st + word_count_of c) chunk_limit).
    + assert (scan_ok comb chunk_limit used0 (accept st idx c))
        by by apply scan_ok_accept.
      destruct (chunk_limit <=? _)%Z; cbn; (split; [done|]);
        by apply prefix_app_r.
    + by destruct (chunk_limit <=? _)%Z.
Qed.

Lemma for_break_scan_ok comb chunk_limit used0 (l : list (nat * Q)) st :
  Forall (λ x, x.1 < length comb) l → scan_ok comb chunk_limit used0 st →
  ∃ st', for_break l st (scan_body comb chunk_limit) = Ok st'
         ∧ scan_ok comb chunk_limit used0 st'
         ∧ chunk st `prefix_of` chunk st'.
Proof.
  intros Hl. revert st. induction Hl as [|[idx sim] l Hidx Hl IH]; intros st Hok.
  - by exists st.
  - destruct (scan_body_ok comb chunk_limit used0 st idx sim Hok Hidx)
      as (f & Hf & Hok' & Hpre).
    cbn [for_break]. rewrite Hf. cbn [mbind result_bind].
    destruct f as [st1|st1]; cbn in Hok', Hpre.
    + destruct (IH st1 Hok') as (st' & Hrun & Hok'' & Hpre').
      exists st'. split_and!; [done..|]. by etrans.
    + by exists st1.
Qed.

Section anchor_scan.
Context `{P : EmbeddingProvider}.
Implicit Types (comb : list string) (embeddings : list embedding).

Lemma ranked_for_in_range comb embeddings anchor_emb :
  length embeddings = length comb →
  Forall (λ x : nat * Q, x.1 < length comb) (ranked_for embeddings anchor_emb).
Proof.
  intros Hlen. apply Forall_forall. intros x Hx.
  assert (x.1 ∈ (ranked_for embeddings anchor_emb).*1) as Hin
    by (apply list_elem_of_fmap; eauto).
  rewrite ranked_for_indices in Hin. apply elem_of_seq in Hin. lia.
Qed.

Lemma scan_anchor_ok comb embeddings chunk_limit (a : nat) (used0 : gset nat) :
  length embeddings = length comb → a < length comb →
  ∃ anchor_emb sc,
    embeddings !! a = Some anchor_emb
    ∧ scan_anchor comb embeddings chunk_limit a used0 = Ok sc
    ∧ scan_ok comb chunk_limit used0 sc.
Proof.
  intros Hlen Ha.
  destruct (lookup_lt_is_Some_2 embeddings a) as [anchor_emb He]; [lia|].
  destruct (for_break_scan_ok comb chunk_limit used0
              (ranked_for embeddings anchor_emb) (ScanState [] used0 0))
    as (sc & Hrun & Hok & _).
  { by apply ranked_for_in_range. }
  { apply scan_ok_init. }
  exists anchor_emb, sc. split_and!; [done| |done].
  unfold scan_anchor. by rewrite (getitem_lookup _ _ _ He).
Qed.

End anchor_scan.

(** ** The anchor chunker: loop over the anchors *)

Lemma chunk_within_wf comb chunk_limit c :
  chunk_within comb chunk_limit c → chunk_wf comb c.
Proof. intros (ms & ? & ? & ? & _). by exists ms. Qed.

Lemma chunk_within_member comb chunk_limit c (i : nat) (w : string) :
  chunk_within comb chunk_limit c → i ∈ memberIndices c → comb !! i = Some w →
  (word_count_of w ≤ chunk_limit)%Z.
Proof.
  intros (ms & -> & _ & Hms & Hle) Hi Hw. cbn in Hi.
  apply list_elem_of_fmap in Hi as ([j s] & -> & Hin).
  unfold members_of in Hms. rewrite Forall_forall in Hms.
  specialize (Hms _ Hin). cbn in Hms, Hw. simplify_eq.
  pose proof (sum_list_with_in _ (λ m : nat * string, word_count_of m.2) _ Hin) as Hsum.
  change (word_count_of s ≤ words_of ms) in Hsum. lia.
Qed.

Lemma range_step_ok (n : nat) (step : Z) :
  step ≠ 0%Z →
  ∃ anchors, range_step n step = Ok anchors
             ∧ Forall (λ a, a < n) anchors
             ∧ ((step < 0)%Z → anchors = [])
             ∧ (0 < n → (0 < step)%Z → head anchors = Some 0).
Proof.
  intros Hstep. unfold range_step. rewrite decide_False by done.
  destruct (decide (step < 0)%Z) as [Hneg|Hpos].
  - exists []. split_and!; [done|constructor|done|lia].
  - eexists. split; [done|]. split_and!; [|lia|].
    + apply Forall_forall. intros a (k & -> & Hk)%list_elem_of_fmap.
      apply elem_of_seq in Hk as [_ Hk].
      assert (Hdiv : (step * ((n + step - 1) / step) ≤ n + step - 1)%Z)
        by (apply Z.mul_div_le; lia).
      nia.
    + intros Hn Hs.
      assert (1 ≤ (n + step - 1) / step)%Z as Hge.
      { apply Z.div_le_lower_bound; lia. }
      destruct (Z.to_nat ((n + step - 1) / step)) as [|m] eqn:Hm; [lia|].
      done.
Qed.

Section anchors.
Context `{P : EmbeddingProvider}.
Implicit Types (comb : list string) (embeddings : list embedding).

Lemma anchor_body_ok comb embeddings chunk_limit (a : nat) st :
  length embeddings = length comb → a < length comb →
  anchors_ok comb chunk_limit st →
  ∃ st', anchor_body comb embeddings chunk_limit a st = Ok st'
         ∧ anchors_ok comb chunk_limit st'.
Proof.
  intros Hlen Ha [Hnd Hused Hch].
  destruct (scan_anchor_ok comb embeddings chunk_limit a st.2 Hlen Ha)
    as (anchor_emb & sc & _ & Hsc & [Hnd' Hfresh Hu Hcount Hmem Hbud]).
  unfold anchor_body. rewrite Hsc. cbn [mbind result_bind].
  destruct (chunk sc) as [|m ms] eqn:Hchunk.
  - eexists. split; [done|]. constructor; cbn; [done| |done].
    intros i Hi. rewrite Hu. set_solver.
  - eexists. split; [done|]. constructor; cbn -[words_of].
    + rewrite fmap_app, concat_app. cbn. rewrite app_nil_r.
      apply NoDup_app. split_and!; [done| |done].
      intros i Hi Hi'. by apply (Hfresh i Hi'), Hused.
    + intros i. rewrite fmap_app, concat_app. cbn. rewrite app_nil_r.
      rewrite Hu, elem_of_app. intros [Hi|Hi].
      * apply elem_of_union_r. by apply Hused.
      * apply elem_of_union_l. by apply elem_of_list_to_set.
    + apply Forall_app. split; [done|]. constructor; [|done].
      exists (m :: ms). split_and!; [done..|].
      rewrite <- Hcount. by apply Hbud.
Qed.

Lemma for_each_anchors_ok comb embeddings chunk_limit (anchors : list nat) st :
  length embeddings = length comb → Forall (λ a, a < length comb) anchors →
  anchors_ok comb chunk_limit st →
  ∃ st', for_each anchors st (anchor_body comb embeddings chunk_limit) = Ok st'
         ∧ anchors_ok comb chunk_limit st'.
Proof.
  intros Hlen Hanch. revert st.
  induction Hanch as [|a anchors Ha _ IH]; intros st Hok.
  - by exists st.
  - destruct (anchor_body_ok comb embeddings chunk_limit a st Hlen Ha Hok)
      as (st1 & Hst1 & Hok1).
    destruct (IH st1 Hok1) as (st' & Hst' & Hok').
    exists st'. split; [|done]. cbn. by rewrite Hst1.
Qed.

Lemma semantic_cluster_chunking_ok comb (anchor_stride chunk_limit : Z) :
  anchor_stride ≠ 0%Z →
  ∃ anchors st,
    range_step (length comb) anchor_stride = Ok anchors
    ∧ for_each anchors ([], ∅) (anchor_body comb (encode comb) chunk_limit) = Ok st
    ∧ outcome (semantic_cluster_chunking comb anchor_stride chunk_limit) = Ok st.1
    ∧ anchors_ok comb chunk_limit st.
Proof.
  intros Hstride.
  destruct (range_step_ok (length comb) anchor_stride Hstride)
    as (anchors & Hr & Hlt & _).
  destruct (for_each_anchors_ok comb (encode comb) chunk_limit anchors ([], ∅))
    as (st & Hst & Hok); [apply encode_length|done| |].
  { constructor; cbn; [constructor| |constructor]. by intros i ?%elem_of_nil. }
  exists anchors, st. split_and!; [done..| |done].
  cbn. rewrite Hr. cbn. by rewrite Hst.
Qed.

End anchors.

(** ** A window above the limit in the sequential chunker *)

Section oversized.
Context `{P : EmbeddingProvider}.
Implicit Types (comb : list string) (threshold : Q).

Lemma merge_test_over threshold (chunk_limit : Z) sim (cur next : nat) :
  (chunk_limit < cur + next)%Z → merge_test threshold chunk_limit sim cur next = false.
Proof.
  intros Hlt. unfold merge_test. apply andb_false_iff. right.
  apply Z.leb_gt. lia.
Qed.

Lemma oversized_round comb threshold (chunk_limit : Z) (i : nat) (w : string) :
  comb !! i = Some w → (chunk_limit < word_count_of w)%Z →
  ∃ st, semantic_chunking_loop comb (encode comb) threshold chunk_limit i = Ok st
        ∧ current_chunk st = [(i, w)] ∧ current_len st = word_count_of w.
Proof.
  intros Hw Hover. pose proof (lookup_lt_Some _ _ _ Hw) as Hi.
  pose proof (encode_length comb) as Hemb.
  destruct i as [|j].
  - unfold semantic_chunking_loop. rewrite (getitem_lookup _ _ _ Hw). cbn.
    by eexists.
  - destruct (semantic_chunking_loop_inv comb (encode comb) threshold chunk_limit j)
      as (st & Hst & _); [done | lia |].
    destruct (lookup_lt_is_Some_2 (encode comb) (S j)) as [e_i He]; [lia|].
    destruct (lookup_lt_is_Some_2 (encode comb) j) as [e_p Hp]; [lia|].
    rewrite semantic_chunking_loop_S, Hst. cbn [mbind result_bind].
    rewrite (semantic_chunking_body_eq _ _ _ _ _ _ _ _ _ He Hp Hw).
    rewrite merge_test_over by lia. by eexists.
Qed.

Lemma oversized_alone comb threshold (chunk_limit : option Z) (i : nat) (w : string) :
  comb !! i = Some w → (default 512%Z chunk_limit < word_count_of w)%Z →
  ∃ seq_out,
    outcome (semantic_chunking comb threshold chunk_limit) = Ok seq_out
    ∧ {| text := w; memberIndices := [i] |} ∈ seq_out.
Proof.
  intros Hw Hover. pose proof (lookup_lt_Some _ _ _ Hw) as Hi.
  set (limit := default 512%Z chunk_limit) in *.
  assert (Hne : comb ≠ []) by (intros ->; cbn in Hi; lia).
  destruct (semantic_chunking_Ok comb threshold chunk_limit Hne)
    as (stf & Hstf & _ & Hout).
  fold limit in Hstf.
  destruct (oversized_round comb threshold limit i w Hw Hover)
    as (st & Hst & Hcur & Hlen).
  exists (chunks stf ++ [emit (current_chunk stf)]). split; [done|].
  change {| text := w; memberIndices := [i] |} with (emit [(i, w)]).
  destruct (decide (length comb - 1 = i)) as [Hlast|Hnot].
  - rewrite Hlast, Hst in Hstf. simplify_eq. rewrite Hcur.
    apply elem_of_app. right. apply elem_of_cons. by left.
  - pose proof (encode_length comb) as Hemb.
    destruct (lookup_lt_is_Some_2 comb (S i)) as [c Hc]; [lia|].
    destruct (lookup_lt_is_Some_2 (encode comb) (S i)) as [e_i He]; [lia|].
    destruct (lookup_lt_is_Some_2 (encode comb) i) as [e_p Hp]; [lia|].
    pose proof (semantic_chunking_loop_S comb (encode comb) threshold limit i) as HS.
    rewrite Hst in HS. cbn [mbind result_bind] in HS.
    rewrite (semantic_chunking_body_eq _ _ _ _ _ _ _ _ _ He Hp Hc) in HS.
    rewrite merge_test_over in HS by lia. rewrite Hcur in HS.
    replace (length comb - 1) with (S i + (length comb - 1 - S i)) in Hstf by lia.
    rewrite semantic_chunking_loop_add, HS in Hstf. cbn [mbind result_bind] in Hstf.
    apply for_each_extends in Hstf as [_ Hpre]. cbn in Hpre.
    apply elem_of_app. left. eapply elem_of_prefix; [|done].
    apply elem_of_app. right. apply elem_of_cons. by left.
Qed.

End oversized.

(** ** The anchor chunker: results *)

Lemma demo_run :
  outcome (@semantic_cluster_chunking demo_provider demo_comb 5 2)
  = Ok [{| text := "d"; memberIndices := [1] |}].
Proof. vm_compute. reflexivity. Qed.

Section anchor_results.
Context `{P : EmbeddingProvider}.
Implicit Types (comb : list string) (anchor_stride chunk_limit : Z).

(** C2. The member indices of the chunks emitted by the anchor chunker are
    pairwise disjoint: no window is a member of two chunks (nor twice of one),
    and every member is a position of the input.  The union can miss
    positions: with the two windows "a b c" and "d" and a limit of two words,
    window 0 is in no chunk. *)
Theorem anchor_disjoint comb anchor_stride chunk_limit :
  anchor_stride ≠ 0%Z →
  ∃ chunks_out,
    outcome (semantic_cluster_chunking comb anchor_stride chunk_limit) = Ok chunks_out
    ∧ NoDup (concat (memberIndices <$> chunks_out))
    ∧ (∀ p q c c' i, chunks_out !! p = Some c → chunks_out !! q = Some c' →
         i ∈ memberIndices c → i ∈ memberIndices c' → p = q)
    ∧ (∀ c i, c ∈ chunks_out → i ∈ memberIndices c → i < length comb)
    ∧ (∃ out (i : nat),
         outcome (@semantic_cluster_chunking demo_provider demo_comb 5 2) = Ok out
         ∧ i < length demo_comb ∧ ∀ c, c ∈ out → i ∉ memberIndices c).
Proof.
  intros Hstride.
  destruct (semantic_cluster_chunking_ok comb anchor_stride chunk_limit Hstride)
    as (anchors & st & _ & _ & Hout & [Hnd Hused Hch]).
  exists st.1. split_and!; [done..| | |].
  - intros p q c c' i Hp Hq Hi Hi'.
    refine (concat_NoDup_unique (memberIndices <$> st.1) p q
              (memberIndices c) (memberIndices c') i Hnd _ _ Hi Hi').
    + by rewrite list_lookup_fmap, Hp.
    + by rewrite list_lookup_fmap, Hq.
  - intros c i Hc Hi. rewrite Forall_forall in Hch.
    eapply chunk_wf_lt; [|done]. eapply chunk_within_wf. by apply Hch.
  - exists [{| text := "d"; memberIndices := [1] |}], 0.
    split_and!; [apply demo_run | cbn; lia |].
    intros c ->%list_elem_of_singleton. cbn.
    by intros ?%list_elem_of_singleton.
Qed.

(** C10. Every chunk emitted by the anchor chunker has an accumulated word
    count of at most [chunk_limit].  Hence a window with more words than
    [chunk_limit] is a member of no anchor chunk, whereas the sequential
    chunker, run with that limit, emits it as a chunk of its own. *)
Theorem anchor_budget comb anchor_stride chunk_limit (threshold : Q) :
  anchor_stride ≠ 0%Z →
  ∃ chunks_out,
    outcome (semantic_cluster_chunking comb anchor_stride chunk_limit) = Ok chunks_out
    ∧ Forall (chunk_within comb chunk_limit) chunks_out
    ∧ ∀ (i : nat) (w : string),
        comb !! i = Some w → (chunk_limit < word_count_of w)%Z →
        (∀ c, c ∈ chunks_out → i ∉ memberIndices c)
        ∧ ∃ seq_out,
            outcome (semantic_chunking comb threshold (Some chunk_limit)) = Ok seq_out
            ∧ {| text := w; memberIndices := [i] |} ∈ seq_out.
Proof.
  intros Hstride.
  destruct (semantic_cluster_chunking_ok comb anchor_stride chunk_limit Hstride)
    as (anchors & st & _ & _ & Hout & [Hnd Hused Hch]).
  exists st.1. split_and!; [done..|].
  intros i w Hw Hover. split.
  - intros c Hc Hi. rewrite Forall_forall in Hch.
    pose proof (chunk_within_member _ _ _ _ _ (Hch c Hc) Hi Hw). lia.
  - by apply oversized_alone.
Qed.

End anchor_results.

(** ** The scan: where it stops *)






Section anchor_procedure.
Context `{P : EmbeddingProvider}.
Implicit Types (comb : list string) (chunk_limit : Z).


End anchor_procedure.

(** ** The first member of an anchor's chunk *)

Section anchor_first.
Context `{P : EmbeddingProvider}.
Implicit Types (comb : list string) (chunk_limit : Z).




End anchor_first.


(** The same with equal similarities: windows 1 and 5 have the same text, so
    for anchor 5 the stable sort puts window 1 first, and the chunk of
    anchor 5 starts with window 1. *)
Example anchor_tie_example :
  outcome (@semantic_cluster_chunking demo_provider
             ["a b c"; "d"; "e"; "f"; "g"; "d"]%string 5 3)
  = Ok [{| text := "a b c"; memberIndices := [0] |};
        {| text := "d d e"; memberIndices := [1; 5; 2] |}].
Proof. vm_compute. reflexivity. Qed.

(** ** Empty input *)

(** C6, the sequential chunker.  [comb[0]] is read before the loop, so an
    empty window sequence raises [IndexError], after the embedding request. *)
Theorem sequential_empty_raises `{P : EmbeddingProvider} (threshold : Q)
    (chunk_limit : option Z) :
  semantic_chunking [] threshold chunk_limit = Run 1 (Raise IndexError).
Proof. reflexivity. Qed.

(** The anchor chunker has no anchor to visit and returns no chunk. *)
Lemma anchor_empty_returns `{P : EmbeddingProvider} (anchor_stride chunk_limit : Z) :
  anchor_stride ≠ 0%Z →
  semantic_cluster_chunking [] anchor_stride chunk_limit = Run 1 (Ok []).
Proof.
  intros Hs. unfold semantic_cluster_chunking, range_step.
  rewrite decide_False by done. cbn [length].
  destruct (decide (anchor_stride < 0)%Z); [done|].
  replace ((0%nat + anchor_stride - 1) / anchor_stride)%Z with 0%Z; [done|].
  symmetry. apply Z.div_small. lia.
Qed.

(** ** Parameters outside their domain *)

Lemma func_window_negative (sents : list SentenceRecord) (b : Z) (i : nat) :
  (b < 0)%Z → func_window sents b i = Ok EmptyString.
Proof.
  intros Hb. unfold func_window, range.
  replace (Z.to_nat (i + 1 - (i - Z.min i b))) with 0 by lia.
  replace (Z.to_nat (Z.min (length sents) (b + 1 + i) - (i + 1))) with 0 by lia.
  done.
Qed.

Lemma func_negative (sents : list SentenceRecord) (b : Z) :
  (b < 0)%Z → func sents b = Ok (replicate (length sents) EmptyString).
Proof.
  intros Hb. unfold func, enumerate.
  assert (∀ (l : list SentenceRecord) (a : nat) (acc : list string),
    for_each (zip (seq a (length l)) l) acc
      (λ '(index, value) combined,
         k ← func_window sents b index; mret (combined ++ [k]))
    = Ok (acc ++ replicate (length l) EmptyString)) as Hloop.
  { induction l as [|x l IH]; intros a acc; cbn.
    - by rewrite app_nil_r.
    - rewrite func_window_negative by done. cbn.
      by rewrite IH, <- app_assoc. }
  apply (Hloop sents 0 []).
Qed.

(** C7 as it is stated fails: the calls below have a negative buffer size,
    a threshold outside of [0, 1] with a negative word limit, and a negative
    stride with a zero word limit; each returns normally. *)
Lemma invalid_parameters_accepted :
  func (mk_sentences ["A."; "B."]%string) (-1) = Ok [""; ""]%string
  ∧ @semantic_chunking demo_provider demo_comb (7 # 2) (Some (-7)%Z)
    = Run 1 (Ok [{| text := "a b c"; memberIndices := [0] |};
                 {| text := "d"; memberIndices := [1] |}])
  ∧ @semantic_cluster_chunking demo_provider demo_comb (-5) 0 = Run 1 (Ok []).
Proof. split_and!; vm_compute; reflexivity. Qed.

(** C7, as the code has it.  No parameter is checked.  A negative buffer
    size gives one empty window per sentence.  On a non-empty window sequence
    the sequential chunker returns chunks whatever the threshold and the word
    limit are.  The anchor chunker returns chunks for every word limit and
    every stride other than zero, none at all when the stride is negative;
    with a stride of zero it raises the [ValueError] of [range], and the
    embedding request has been issued by then. *)
Theorem parameters_not_validated `{P : EmbeddingProvider}
    (sents : list SentenceRecord) (bufferSize : Z) (comb : list string)
    (threshold : Q) (chunk_limit : option Z) (anchor_stride word_limit : Z) :
  (bufferSize < 0)%Z → comb ≠ [] →
  func sents bufferSize = Ok (replicate (length sents) EmptyString)
  ∧ (∃ out, semantic_chunking comb threshold chunk_limit = Run 1 (Ok out))
  ∧ (anchor_stride ≠ 0%Z →
     ∃ out, semantic_cluster_chunking comb anchor_stride word_limit = Run 1 (Ok out)
            ∧ ((anchor_stride < 0)%Z → out = []))
  ∧ semantic_cluster_chunking comb 0 word_limit = Run 1 (Raise ValueError).
Proof.
  intros Hb Hne. split_and!.
  - by apply func_negative.
  - destruct (semantic_chunking_Ok comb threshold chunk_limit Hne)
      as (st & _ & _ & Hout).
    eexists. unfold semantic_chunking in *. cbn in Hout. by rewrite Hout.
  - intros Hs.
    destruct (semantic_cluster_chunking_ok comb anchor_stride word_limit Hs)
      as (anchors & st & Hr & Hrun & Hout & _).
    exists st.1. split.
    + unfold semantic_cluster_chunking in *. cbn in Hout. by rewrite Hout.
    + intros Hneg.
      destruct (range_step_ok (length comb) anchor_stride Hs)
        as (anchors' & Hr' & _ & Hnil & _).
      rewrite Hr in Hr'. simplify_eq. rewrite (Hnil Hneg) in Hrun.
      cbn in Hrun. by simplify_eq.
  - reflexivity.
Qed.

(** ** The conversion of the threshold to [float32] *)

Lemma round_half_even_mono (a b : Q) :
  (a <= b)%Q → (round_half_even a ≤ round_half_even b)%Z.
Proof.
  intros Hab. unfold round_half_even.
  pose proof (Qfloor_resp_le _ _ Hab) as Hf.
  pose proof (Qfloor_le a) as Ha1. pose proof (Qlt_floor a) as Ha2.
  pose proof (Qfloor_le b) as Hb1. pose proof (Qlt_floor b) as Hb2.
  rewrite inject_Z_plus in Ha2, Hb2.
  change (inject_Z 1) with 1%Q in Ha2, Hb2.
  destruct (Z.eq_dec (Qfloor a) (Qfloor b)) as [Heq|Hne].
  - rewrite <- Heq in *.
    destruct (a - inject_Z (Qfloor a) ?= 1 # 2)%Q eqn:Hca;
      destruct (b - inject_Z (Qfloor a) ?= 1 # 2)%Q eqn:Hcb;
      first [apply Qeq_alt in Hca | apply Qlt_alt in Hca | apply Qgt_alt in Hca];
      first [apply Qeq_alt in Hcb | apply Qlt_alt in Hcb | apply Qgt_alt in Hcb];
      destruct (Z.even (Qfloor a)); try lia; exfalso; lra.
  - assert (Qfloor a + 1 ≤ Qfloor b)%Z by lia.
    destruct (a - inject_Z (Qfloor a) ?= 1 # 2)%Q;
      destruct (b - inject_Z (Qfloor b) ?= 1 # 2)%Q;
      destruct (Z.even (Qfloor a)); destruct (Z.even (Qfloor b)); lia.
Qed.

Lemma round_float32_unit_mono (x y : Q) :
  (x <= y)%Q → (round_float32_unit x <= round_float32_unit y)%Q.
Proof.
  intros Hxy. unfold round_float32_unit, Qle. cbn [Qnum Qden].
  apply Z.mul_le_mono_nonneg_r; [done|].
  apply round_half_even_mono.
  apply Qmult_le_compat_r; [done|]. done.
Qed.

(** The Python [float] [0.8] is below the [float32] it is converted to. *)
Lemma round_float32_unit_float_0_8 :
  round_float32_unit float_0_8 = float32_0_8 ∧ (float_0_8 < float32_0_8)%Q.
Proof. split; vm_compute; reflexivity. Qed.

Lemma round_float32_unit_half : (round_float32_unit (1 # 2) == 1 # 2)%Q.
Proof. vm_compute. reflexivity. Qed.

Lemma round_float32_unit_0_8 : (round_float32_unit float32_0_8 == float32_0_8)%Q.
Proof. vm_compute. reflexivity. Qed.

Lemma round_float32_unit_1 : (round_float32_unit 1 == 1)%Q.
Proof. vm_compute. reflexivity. Qed.

Lemma round_float32_unit_above_1 :
  (round_float32_unit float32_above_1 == float32_above_1)%Q.
Proof. vm_compute. reflexivity. Qed.

Lemma sim_eq_rounded (round : Q → Q) (high low : Q) :
  (round high == high)%Q → (round low == low)%Q →
  ∀ a b, (round (sim_eq high low a b) == sim_eq high low a b)%Q.
Proof. intros Hhigh Hlow a b. unfold sim_eq. by destruct (decide (a = b)). Qed.

(** ** The defaults at work *)

(** The run of the documentation: similarity 0.9 between windows 0 and 1,
    0.5 between windows 1 and 2, default threshold and limit. *)
Example sequential_defaults :
  outcome (@semantic_chunking
             (table_provider (λ a b, if decide (a = "two" ∧ b = "one")%string
                                     then 0.9%Q else 0.5%Q))
             ["one"; "two"; "three"]%string default_threshold None)
  = Ok [{| text := "one two"; memberIndices := [0; 1] |};
        {| text := "three"; memberIndices := [2] |}].
Proof. vm_compute. reflexivity. Qed.

(** Six windows and the default stride: the anchors are 0 and 5. *)
Example anchors_defaults :
  range_step (length six_comb) default_anchor_stride = Ok [0; 5]
  ∧ outcome (@semantic_cluster_chunking demo_provider six_comb
               default_anchor_stride default_chunk_limit)
    = Ok [{| text := "a b c d e f g d"; memberIndices := [0; 1; 2; 3; 4; 5] |}].
Proof. split; vm_compute; reflexivity. Qed.

(** ** The theorems at concrete inputs *)

Lemma sequential_partition_witness :
  ∃ chunks_out,
    outcome (@semantic_chunking demo_provider three_comb (3 # 4) (Some 5%Z))
    = Ok chunks_out
    ∧ concat (memberIndices <$> chunks_out) = seq 0 (length three_comb)
    ∧ Forall (chunk_wf three_comb) chunks_out
    ∧ (∀ i, i < length three_comb →
         ∃ p c, chunks_out !! p = Some c ∧ i ∈ memberIndices c
                ∧ ∀ q c', chunks_out !! q = Some c' → i ∈ memberIndices c' → q = p)
    ∧ ∃ first rest, chunks_out = first :: rest ∧ head (memberIndices first) = Some 0.
Proof.
  apply (@sequential_partition demo_provider three_comb (3 # 4) (Some 5%Z)).
  discriminate.
Defined.

Lemma anchor_disjoint_witness :
  ∃ chunks_out,
    outcome (@semantic_cluster_chunking demo_provider six_comb 5 3) = Ok chunks_out
    ∧ NoDup (concat (memberIndices <$> chunks_out))
    ∧ (∀ p q c c' i, chunks_out !! p = Some c → chunks_out !! q = Some c' →
         i ∈ memberIndices c → i ∈ memberIndices c' → p = q)
    ∧ (∀ c i, c ∈ chunks_out → i ∈ memberIndices c → i < length six_comb)
    ∧ (∃ out (i : nat),
         outcome (@semantic_cluster_chunking demo_provider demo_comb 5 2) = Ok out
         ∧ i < length demo_comb ∧ ∀ c, c ∈ out → i ∉ memberIndices c).
Proof.
  apply (@anchor_disjoint demo_provider six_comb 5 3). lia.
Defined.

Lemma sequential_merge_rule_witness :
  1 ≤ 1 < length three_comb
  ∧ ∃ st e_i e_prev c_i chunks_out,
      @semantic_chunking_loop demo_provider three_comb
        (@encode demo_provider three_comb) (3 # 4) 5 (1 - 1) = Ok st
      ∧ (@encode demo_provider three_comb) !! 1 = Some e_i
      ∧ (@encode demo_provider three_comb) !! (1 - 1) = Some e_prev
      ∧ three_comb !! 1 = Some c_i
      ∧ last (current_chunk st).*1 = Some (1 - 1)
      ∧ current_len st = words_of (current_chunk st)
      ∧ outcome (@semantic_chunking demo_provider three_comb (3 # 4) (Some 5%Z))
        = Ok chunks_out
      ∧ let merge := (@round_threshold demo_provider (3 # 4)
                      < @cosine_similarity demo_provider e_i e_prev)%Q
                     ∧ (current_len st + word_count_of c_i ≤ 5)%Z in
        (merge →
           @semantic_chunking_loop demo_provider three_comb
             (@encode demo_provider three_comb) (3 # 4) 5 1
           = Ok (SeqState (chunks st) (current_chunk st ++ [(1, c_i)])
                   (current_len st + word_count_of c_i))
           ∧ ∃ c, c ∈ chunks_out ∧ 1 - 1 ∈ memberIndices c ∧ 1 ∈ memberIndices c)
        ∧ (¬ merge →
           @semantic_chunking_loop demo_provider three_comb
             (@encode demo_provider three_comb) (3 # 4) 5 1
           = Ok (SeqState (chunks st ++ [emit (current_chunk st)]) [(1, c_i)]
                   (word_count_of c_i))
           ∧ emit (current_chunk st) ∈ chunks_out
           ∧ (∃ c, c ∈ chunks_out ∧ head (memberIndices c) = Some 1)
           ∧ ¬ ∃ c, c ∈ chunks_out ∧ 1 - 1 ∈ memberIndices c ∧ 1 ∈ memberIndices c).
Proof.
  assert (H : 1 ≤ 1 < length three_comb) by (cbn; lia).
  split; [exact H|].
  exact (@sequential_merge_rule demo_provider three_comb (3 # 4) (Some 5%Z) 1 H).
Defined.

(** C3 as it is stated fails: with the Python [float] [0.8] as threshold and
    a similarity that is the [float32] nearest to [0.8], the similarity is
    strictly greater than the threshold and the four words of the two
    windows are within the limit, and window 1 is not appended to the chunk
    of window 0.  The threshold that is compared is the [float32] itself. *)
Lemma merge_above_threshold_fails :
  let P := rounding_provider (sim_eq 1 float32_0_8) round_float32_unit
             round_float32_unit_mono
             (sim_eq_rounded round_float32_unit _ _
                round_float32_unit_1 round_float32_unit_0_8) in
  let comb := ["p q"; "r s"]%string in
  @encode P comb = ["p q"; "r s"]%string
  ∧ (float_0_8 < @cosine_similarity P "r s" "p q")%Q
  ∧ (word_count_of "p q" + word_count_of "r s" ≤ 512)%Z
  ∧ @round_threshold P float_0_8 = @cosine_similarity P "r s" "p q"
  ∧ @semantic_chunking P comb float_0_8 None
    = Run 1 (Ok [{| text := "p q"; memberIndices := [0] |};
                 {| text := "r s"; memberIndices := [1] |}]).
Proof. split_and!; first [by vm_compute | vm_compute; reflexivity]. Qed.


Lemma parameters_not_validated_witness :
  func (mk_sentences ["A."; "B."]%string) (-1)
  = Ok (replicate (length (mk_sentences ["A."; "B."]%string)) EmptyString)
  ∧ (∃ out, @semantic_chunking demo_provider demo_comb (7 # 2) (Some (-7)%Z)
            = Run 1 (Ok out))
  ∧ ((-5)%Z ≠ 0%Z →
     ∃ out, @semantic_cluster_chunking demo_provider demo_comb (-5) 0 = Run 1 (Ok out)
            ∧ ((-5 < 0)%Z → out = []))
  ∧ @semantic_cluster_chunking demo_provider demo_comb 0 0 = Run 1 (Raise ValueError).
Proof.
  apply (@parameters_not_validated demo_provider
           (mk_sentences ["A."; "B."]%string) (-1) demo_comb (7 # 2)
           (Some (-7)%Z) (-5) 0).
  - lia.
  - discriminate.
Defined.


Lemma anchor_budget_witness :
  ∃ chunks_out,
    outcome (@semantic_cluster_chunking demo_provider demo_comb 5 2) = Ok chunks_out
    ∧ Forall (chunk_within demo_comb 2) chunks_out
    ∧ ∀ (i : nat) (w : string),
        demo_comb !! i = Some w → (2 < word_count_of w)%Z →
        (∀ c, c ∈ chunks_out → i ∉ memberIndices c)
        ∧ ∃ seq_out,
            outcome (@semantic_chunking demo_provider demo_comb (3 # 4) (Some 2%Z))
            = Ok seq_out
            ∧ {| text := w; memberIndices := [i] |} ∈ seq_out.
Proof.
  apply (@anchor_budget demo_provider demo_comb 5 2 (3 # 4)). lia.
Defined.

(** ** Word counts of joined texts *)

Lemma split_from_space (a b : string) (cur : option string) :
  split_from cur (a +:+ String " " b) = split_from cur a ++ split_from None b.
Proof.
  revert cur. induction a as [|c a IH]; intros cur.
  - by destruct cur.
  - change (String c a +:+ String " " b) with (String c (a +:+ String " " b)).
    cbn [split_from]. destruct (is_space c); [destruct cur|]; by rewrite IH.
Qed.

Lemma split_join_cons (x y : string) (l : list string) :
  split (join " " (x :: y :: l)) = split x ++ split (join " " (y :: l)).
Proof. apply split_from_space. Qed.

(** [len(" ".join(l).split())] is the sum of the [len(w.split())]. *)
Lemma word_count_join (l : list string) :
  word_count_of (join " " l) = sum_list_with word_count_of l.
Proof.
  induction l as [|x l IH]; [done|].
  destruct l as [|y l].
  - change (join " " [x]) with x. cbn [sum_list_with]. lia.
  - change (sum_list_with word_count_of (x :: y :: l))
      with (word_count_of x + sum_list_with word_count_of (y :: l)).
    rewrite <- IH. unfold word_count_of.
    by rewrite split_join_cons, length_app.
Qed.

Lemma word_count_emit (ms : list (nat * string)) :
  word_count_of (text (emit ms)) = words_of ms.
Proof.
  unfold emit. cbn [text]. rewrite word_count_join. unfold words_of.
  induction ms as [|m ms IH]; [done|].
  rewrite fmap_cons. cbn [sum_list_with]. by rewrite IH.
Qed.

Lemma members_of_singleton comb (ms : list (nat * string)) :
  members_of comb ms → length ms = 1 →
  ∃ i w, comb !! i = Some w ∧ emit ms = {| text := w; memberIndices := [i] |}.
Proof.
  intros Hms Hlen. destruct ms as [|[i w] [|? ?]]; try done.
  apply Forall_cons in Hms as [Hw _]. by exists i, w.
Qed.

(** ** The sequential chunker: the word budget *)

Section sequential_budget.
Context `{P : EmbeddingProvider}.
Implicit Types (comb : list string) (threshold : Q).

Lemma semantic_chunking_loop_budget comb threshold (chunk_limit : Z) (k : nat) :
  k < length comb →
  ∃ st,
    semantic_chunking_loop comb (encode comb) threshold chunk_limit k = Ok st
    ∧ seq_inv comb k st
    ∧ within_or_single comb chunk_limit (current_chunk st)
    ∧ Forall (λ c, ∃ ms, c = emit ms ∧ within_or_single comb chunk_limit ms)
        (chunks st).
Proof.
  pose proof (encode_length comb) as Hemb.
  induction k as [|k IH]; intros Hk.
  - destruct (semantic_chunking_loop_inv comb (encode comb) threshold chunk_limit 0)
      as (st & Hst & Hinv); [done..|].
    exists st. split_and!; [done..| |].
    + destruct (lookup_lt_is_Some_2 comb 0 Hk) as [c_0 Hc].
      unfold semantic_chunking_loop in Hst.
      rewrite (getitem_lookup _ _ _ Hc) in Hst. cbn in Hst. simplify_eq. cbn.
      split; [by repeat constructor|by right].
    + destruct (lookup_lt_is_Some_2 comb 0 Hk) as [c_0 Hc].
      unfold semantic_chunking_loop in Hst.
      rewrite (getitem_lookup _ _ _ Hc) in Hst. cbn in Hst. by simplify_eq.
  - destruct IH as (st & Hst & Hinv & [Hmem Hcur] & Hch); [lia|].
    destruct (lookup_lt_is_Some_2 comb (S k) Hk) as [c Hc].
    destruct (lookup_lt_is_Some_2 (encode comb) (S k)) as [e_i He]; [lia|].
    destruct (lookup_lt_is_Some_2 (encode comb) k) as [e_p Hp]; [lia|].
    rewrite semantic_chunking_loop_S, Hst. cbn [mbind result_bind].
    rewrite (semantic_chunking_body_eq _ _ _ _ _ _ _ _ _ He Hp Hc).
    eexists. split; [done|]. split; [by apply seq_inv_step|].
    destruct (merge_test _ _ _ _ _) eqn:Htest; cbn -[words_of].
    + apply merge_test_true in Htest as [_ Hfit].
      split; [|done]. split; [apply members_of_app; [done|by constructor]|].
      left. rewrite words_of_app, words_of_singleton.
      rewrite <- (inv_len _ _ _ Hinv). lia.
    + split.
      * split; [by constructor|by right].
      * apply Forall_app. split; [done|]. constructor; [|done].
        by exists (current_chunk st).
Qed.

End sequential_budget.

Section text_budget.
Context `{P : EmbeddingProvider}.
Implicit Types (comb : list string) (threshold : Q).

(** X1. The text of a chunk of the sequential chunker, counted as the
    notebook counts it ([len(chunk.split())]), has at most [chunk_limit]
    words, unless the chunk is one window of [comb] on its own. *)
Theorem sequential_text_budget comb threshold (chunk_limit : option Z) :
  comb ≠ [] →
  ∃ out,
    outcome (semantic_chunking comb threshold chunk_limit) = Ok out
    ∧ Forall (λ c, (word_count_of (text c) ≤ default 512%Z chunk_limit)%Z
                   ∨ ∃ (i : nat) (w : string),
                       comb !! i = Some w
                       ∧ c = {| text := w; memberIndices := [i] |}) out.
Proof.
  intros Hne.
  assert (0 < length comb) as Hpos by (destruct comb; [done | cbn; lia]).
  destruct (semantic_chunking_loop_budget comb threshold
              (default 512%Z chunk_limit) (length comb - 1))
    as (st & Hst & _ & Hcur & Hch); [lia|].
  exists (chunks st ++ [emit (current_chunk st)]). split.
  { cbn. by rewrite Hst. }
  assert (∀ ms, within_or_single comb (default 512%Z chunk_limit) ms →
            (word_count_of (text (emit ms)) ≤ default 512%Z chunk_limit)%Z
            ∨ ∃ (i : nat) (w : string),
                comb !! i = Some w
                ∧ emit ms = {| text := w; memberIndices := [i] |}) as Hone.
  { intros ms [Hms [Hle|Hlen]].
    - left. by rewrite word_count_emit.
    - right. by apply members_of_singleton. }
  apply Forall_app. split.
  - eapply Forall_impl; [done|]. intros c (ms & -> & Hms). by apply Hone.
  - constructor; [|done]. by apply Hone.
Qed.

(** X2. The text of a chunk of the anchor chunker is the join of windows of
    [comb]; its word count, counted on the text, is the sum of the word
    counts of these windows and is at most [chunk_limit]. *)
Theorem anchor_text_budget comb (anchor_stride chunk_limit : Z) :
  anchor_stride ≠ 0%Z →
  ∃ out,
    outcome (semantic_cluster_chunking comb anchor_stride chunk_limit) = Ok out
    ∧ Forall (λ c, ∃ ms, c = emit ms ∧ members_of comb ms
                         ∧ word_count_of (text c) = words_of ms
                         ∧ (word_count_of (text c) ≤ chunk_limit)%Z) out.
Proof.
  intros Hstride.
  destruct (semantic_cluster_chunking_ok comb anchor_stride chunk_limit Hstride)
    as (anchors & st & _ & _ & Hout & [_ _ Hch]).
  exists st.1. split; [done|].
  eapply Forall_impl; [done|]. intros c (ms & -> & _ & Hms & Hle).
  exists ms. rewrite word_count_emit. done.
Qed.

End text_budget.

(** ** The sequential chunker: chunks are slices of the windows *)

Lemma concat_seq_groups (gs : list (list nat)) (a n : nat) :
  concat gs = seq a n → Forall (λ g, ∃ s, g = seq s (length g)) gs.
Proof.
  revert a n. induction gs as [|g gs IH]; intros a n Hcat; [constructor|].
  cbn in Hcat.
  assert (length g ≤ n) as Hlen.
  { apply (f_equal length) in Hcat. rewrite length_app, length_seq in Hcat. lia. }
  assert (g = seq a (length g)) as Hg.
  { apply (f_equal (take (length g))) in Hcat.
    by rewrite take_app_length, take_seq, Nat.min_l in Hcat. }
  constructor; [by exists a|].
  apply (IH (a + length g) (n - length g)).
  apply (f_equal (drop (length g))) in Hcat.
  by rewrite drop_app_length, drop_seq in Hcat.
Qed.

Lemma length_concat_nonempty {A} (gs : list (list A)) :
  Forall (λ g, g ≠ []) gs → length gs ≤ length (concat gs).
Proof.
  induction 1 as [|g gs Hg _ IH]; [done|].
  cbn. rewrite length_app. destruct g; [done|]. cbn. lia.
Qed.

Lemma members_of_slice comb (ms : list (nat * string)) (s m : nat) :
  members_of comb ms → ms.*1 = seq s m → ms.*2 = take m (drop s comb).
Proof.
  intros Hms Hidx.
  assert (length ms = m) as Hlen
    by (by rewrite <- (length_fmap fst), Hidx, length_seq).
  apply list_eq. intros j. rewrite list_lookup_fmap.
  destruct (decide (j < m)) as [Hj|Hj].
  - rewrite lookup_take_lt, lookup_drop by done.
    destruct (lookup_lt_is_Some_2 ms j) as [[i w] Hjw]; [lia|].
    rewrite Hjw. cbn.
    assert (ms.*1 !! j = Some i) as Hi by (by rewrite list_lookup_fmap, Hjw).
    rewrite Hidx in Hi. apply lookup_seq in Hi as [-> _].
    unfold members_of in Hms. rewrite Forall_forall in Hms.
    symmetry. apply (Hms (s + j, w)). by eapply list_elem_of_lookup_2.
  - rewrite lookup_take_ge by lia.
    by rewrite (lookup_ge_None_2 ms j) by lia.
Qed.

Section sequential_slices.
Context `{P : EmbeddingProvider}.
Implicit Types (comb : list string) (threshold : Q).

(** X3. On a non-empty [comb] the sequential chunker returns at least one
    and at most [len(comb)] chunks, and each chunk is a slice of [comb]: its
    windows are consecutive, and its text is their join with single spaces. *)
Theorem sequential_slices comb threshold (chunk_limit : option Z) :
  comb ≠ [] →
  ∃ out,
    outcome (semantic_chunking comb threshold chunk_limit) = Ok out
    ∧ 1 ≤ length out ≤ length comb
    ∧ Forall (λ c, ∃ start,
                memberIndices c = seq start (length (memberIndices c))
                ∧ memberIndices c ≠ []
                ∧ text c = join " " (take (length (memberIndices c))
                                       (drop start comb))) out.
Proof.
  intros Hne.
  destruct (semantic_chunking_Ok comb threshold chunk_limit Hne)
    as (st & _ & [Hcov Hlast Hlen Hmem Hch] & Hout).
  assert (0 < length comb) as Hpos by (destruct comb; [done | cbn; lia]).
  replace (S (length comb - 1)) with (length comb) in Hcov by lia.
  set (out := chunks st ++ [emit (current_chunk st)]) in *.
  assert (Hcat : concat (memberIndices <$> out) = seq 0 (length comb)).
  { unfold out. rewrite fmap_app, concat_app. cbn. by rewrite app_nil_r. }
  assert (Hwf : Forall (chunk_wf comb) out).
  { unfold out. rewrite Forall_app. split; [done|].
    constructor; [|done]. exists (current_chunk st). split_and!; [done| |done].
    intros Hnil. by rewrite Hnil in Hlast. }
  exists out. split_and!; [done| | |].
  - unfold out. rewrite length_app. cbn. lia.
  - assert (length (concat (memberIndices <$> out)) = length comb) as <-
      by (rewrite Hcat; apply length_seq).
    rewrite <- (length_fmap memberIndices).
    apply length_concat_nonempty. apply Forall_fmap.
    eapply Forall_impl; [done|]. intros c. apply chunk_wf_nonempty.
  - pose proof (concat_seq_groups _ _ _ Hcat) as Hgroups.
    rewrite Forall_fmap in Hgroups.
    rewrite Forall_forall in Hgroups, Hwf. apply Forall_forall. intros c Hc.
    destruct (Hgroups c Hc) as [start Hstart]. cbn in Hstart.
    pose proof (chunk_wf_nonempty _ _ (Hwf c Hc)) as Hnonempty.
    destruct (Hwf c Hc) as (ms & -> & _ & Hms).
    exists start. split_and!; [done..|].
    cbn in *. by rewrite (members_of_slice comb ms start _ Hms Hstart).
Qed.

End sequential_slices.

(** ** The sequential chunker: all windows apart, all windows together *)

Lemma enumerate_snoc {A} (l : list A) (x : A) :
  enumerate (l ++ [x]) = enumerate l ++ [(length l, x)].
Proof.
  unfold enumerate. rewrite length_app. cbn [length].
  rewrite Nat.add_1_r, seq_S. cbn [Nat.add].
  rewrite zip_with_app by (by rewrite length_seq). done.
Qed.

Lemma enumerate_take_S {A} (l : list A) (k : nat) (x : A) :
  l !! k = Some x → enumerate (take (S k) l) = enumerate (take k l) ++ [(k, x)].
Proof.
  intros Hx. rewrite (take_S_r _ _ _ Hx), enumerate_snoc.
  by rewrite length_take_le by (apply lookup_lt_Some in Hx; lia).
Qed.

Lemma enumerate_snd {A} (l : list A) : (enumerate l).*2 = l.
Proof. unfold enumerate. apply snd_zip. by rewrite length_seq. Qed.

Lemma sum_take_le {A} (f : A → nat) (l : list A) (m : nat) :
  sum_list_with f (take m l) ≤ sum_list_with f l.
Proof.
  rewrite <- (take_drop m l) at 2. rewrite sum_list_with_app. lia.
Qed.

Section sequential_extremes.
Context `{P : EmbeddingProvider}.
Implicit Types (comb : list string) (threshold : Q).

Lemma semantic_chunking_loop_apart comb threshold (chunk_limit : Z) (k : nat) (c : string) :
  (∀ i e_i e_prev, encode comb !! S i = Some e_i → encode comb !! i = Some e_prev →
     cosine_similarity e_i e_prev <= threshold)%Q →
  comb !! k = Some c →
  semantic_chunking_loop comb (encode comb) threshold chunk_limit k
  = Ok (SeqState ((λ m, emit [m]) <$> enumerate (take k comb)) [(k, c)]
          (word_count_of c)).
Proof.
  intros Hsim. pose proof (encode_length comb) as Hemb.
  revert c. induction k as [|k IH]; intros c Hc.
  - unfold semantic_chunking_loop. by rewrite (getitem_lookup _ _ _ Hc).
  - pose proof (lookup_lt_Some _ _ _ Hc) as Hk.
    destruct (lookup_lt_is_Some_2 comb k) as [c' Hc']; [lia|].
    destruct (lookup_lt_is_Some_2 (encode comb) (S k)) as [e_i He]; [lia|].
    destruct (lookup_lt_is_Some_2 (encode comb) k) as [e_p Hp]; [lia|].
    rewrite semantic_chunking_loop_S, (IH c' Hc'). cbn [mbind result_bind].
    rewrite (semantic_chunking_body_eq _ _ _ _ _ _ _ _ _ He Hp Hc).
    cbn [chunks current_chunk current_len].
    assert (merge_test threshold chunk_limit (cosine_similarity e_i e_p)
              (word_count_of c') (word_count_of c) = false) as ->.
    { apply merge_test_below. by eapply Hsim. }
    cbn [chunks current_chunk current_len].
    by rewrite (enumerate_take_S _ _ _ Hc'), fmap_app.
Qed.

(** X4. When no window is more similar to its predecessor than the
    threshold, the sequential chunker returns the windows themselves, one
    chunk per window, in order. *)
Theorem sequential_all_apart comb threshold (chunk_limit : option Z) :
  comb ≠ [] →
  (∀ i e_i e_prev, encode comb !! S i = Some e_i → encode comb !! i = Some e_prev →
     cosine_similarity e_i e_prev <= threshold)%Q →
  outcome (semantic_chunking comb threshold chunk_limit)
  = Ok ((λ m, {| text := m.2; memberIndices := [m.1] |}) <$> enumerate comb).
Proof.
  intros Hne Hsim.
  assert (0 < length comb) as Hpos by (destruct comb; [done | cbn; lia]).
  destruct (lookup_lt_is_Some_2 comb (length comb - 1)) as [c Hc]; [lia|].
  cbn. rewrite (semantic_chunking_loop_apart comb threshold _ _ c Hsim Hc).
  cbn. f_equal.
  assert (enumerate comb
          = enumerate (take (length comb - 1) comb) ++ [(length comb - 1, c)])
    as Hall.
  { rewrite <- (enumerate_take_S _ _ _ Hc).
    replace (S (length comb - 1)) with (length comb) by lia.
    by rewrite firstn_all. }
  by rewrite Hall, fmap_app.
Qed.

Lemma semantic_chunking_loop_together comb threshold (chunk_limit : Z) (k : nat) :
  (∀ i e_i e_prev, encode comb !! S i = Some e_i → encode comb !! i = Some e_prev →
     round_threshold threshold < cosine_similarity e_i e_prev)%Q →
  (sum_list_with word_count_of comb ≤ chunk_limit)%Z →
  k < length comb →
  semantic_chunking_loop comb (encode comb) threshold chunk_limit k
  = Ok (SeqState [] (enumerate (take (S k) comb))
          (sum_list_with word_count_of (take (S k) comb))).
Proof.
  intros Hsim Htotal. pose proof (encode_length comb) as Hemb.
  induction k as [|k IH]; intros Hk.
  - destruct (lookup_lt_is_Some_2 comb 0 Hk) as [c Hc].
    unfold semantic_chunking_loop. rewrite (getitem_lookup _ _ _ Hc).
    cbn [mbind result_bind for_each seq].
    destruct comb as [|c' comb']; [done|]. cbn in Hc. simplify_eq.
    cbn. by rewrite Nat.add_0_r.
  - destruct (lookup_lt_is_Some_2 comb (S k) Hk) as [c Hc].
    destruct (lookup_lt_is_Some_2 (encode comb) (S k)) as [e_i He]; [lia|].
    destruct (lookup_lt_is_Some_2 (encode comb) k) as [e_p Hp]; [lia|].
    rewrite semantic_chunking_loop_S, IH by lia. cbn [mbind result_bind].
    rewrite (semantic_chunking_body_eq _ _ _ _ _ _ _ _ _ He Hp Hc).
    cbn [chunks current_chunk current_len].
    assert (sum_list_with word_count_of (take (S (S k)) comb)
            = sum_list_with word_count_of (take (S k) comb) + word_count_of c)
      as Hsum.
    { rewrite (take_S_r _ _ _ Hc), sum_list_with_app. cbn. lia. }
    assert (merge_test threshold chunk_limit (cosine_similarity e_i e_p)
              (sum_list_with word_count_of (take (S k) comb)) (word_count_of c)
            = true) as ->.
    { apply merge_test_true. split; [by eapply Hsim|].
      pose proof (sum_take_le word_count_of comb (S (S k))). lia. }
    by rewrite (enumerate_take_S _ _ _ Hc), Hsum.
Qed.

(** X5. When the similarity of every window to its predecessor is above the
    threshold as the comparison takes it, converted to the precision of the
    similarity, and the words of all windows together are within the limit,
    the sequential chunker returns one chunk: all windows, joined in order. *)
Theorem sequential_all_together comb threshold (chunk_limit : option Z) :
  comb ≠ [] →
  (∀ i e_i e_prev, encode comb !! S i = Some e_i → encode comb !! i = Some e_prev →
     round_threshold threshold < cosine_similarity e_i e_prev)%Q →
  (sum_list_with word_count_of comb ≤ default 512%Z chunk_limit)%Z →
  outcome (semantic_chunking comb threshold chunk_limit)
  = Ok [{| text := join " " comb; memberIndices := seq 0 (length comb) |}].
Proof.
  intros Hne Hsim Htotal.
  assert (0 < length comb) as Hpos by (destruct comb; [done | cbn; lia]).
  cbn. rewrite (semantic_chunking_loop_together comb threshold _ _ Hsim Htotal)
    by lia.
  cbn. replace (S (length comb - 1)) with (length comb) by lia.
  rewrite firstn_all. unfold emit. by rewrite enumerate_fst, enumerate_snd.
Qed.

End sequential_extremes.

(** ** Threshold one *)

Section threshold_one.
Context `{P : EmbeddingProvider}.
Implicit Types (comb : list string) (chunk_limit : option Z).

(** C8, as the code has it.  With a threshold of 1, windows [i - 1] and [i]
    share a chunk only if the similarity returned for their embeddings is
    above the threshold as the comparison takes it; a similarity of at most
    1 never is.  So when only equal embeddings are given a similarity above 1, two
    adjacent windows with different embeddings never share a chunk, and
    when no embeddings are given a similarity above 1, equal ones
    included, every chunk is a single window. *)
Theorem threshold_one_merges comb chunk_limit (i : nat) :
  1 ≤ i < length comb →
  ∃ e_i e_prev chunks_out,
    encode comb !! i = Some e_i ∧ encode comb !! (i - 1) = Some e_prev
    ∧ outcome (semantic_chunking comb 1 chunk_limit) = Ok chunks_out
    ∧ let together :=
        ∃ c, c ∈ chunks_out ∧ i - 1 ∈ memberIndices c ∧ i ∈ memberIndices c in
      (together → (round_threshold 1 < cosine_similarity e_i e_prev)%Q)
      ∧ ((cosine_similarity e_i e_prev <= 1)%Q → ¬ together)
      ∧ ((∀ e e', e ≠ e' → (cosine_similarity e e' <= 1)%Q) →
         e_i ≠ e_prev → ¬ together)
      ∧ ((∀ e e', (cosine_similarity e e' <= 1)%Q) →
         chunks_out
         = (λ m, {| text := m.2; memberIndices := [m.1] |}) <$> enumerate comb).
Proof.
  intros Hi.
  destruct (semantic_chunking_round comb 1 chunk_limit i Hi)
    as (st & e_i & e_p & c_i & chunks_out
        & _ & He & Hp & _ & _ & _ & Hout & Hround).
  cbv zeta in He, Hp, Hround.
  exists e_i, e_p, chunks_out. split_and!; [done..|]. cbv zeta.
  assert (Hrule : (∃ c, c ∈ chunks_out ∧ i - 1 ∈ memberIndices c
                        ∧ i ∈ memberIndices c) →
                  (round_threshold 1 < cosine_similarity e_i e_p)%Q).
  { intros Htogether.
    destruct (merge_test 1 _ (cosine_similarity e_i e_p) _ _) eqn:Htest.
    - by apply merge_test_true in Htest as [? _].
    - by destruct Hround as (_ & _ & _ & Hapart). }
  assert (Hbelow : (cosine_similarity e_i e_p <= 1)%Q →
                   ¬ ∃ c, c ∈ chunks_out ∧ i - 1 ∈ memberIndices c
                          ∧ i ∈ memberIndices c).
  { intros Hle Htogether. apply Hrule in Htogether.
    apply round_threshold_above in Hle.
    by apply Qlt_not_le in Htogether. }
  split_and!; [done | done | by auto |].
  intros Hcos.
  assert (comb ≠ []) as Hne by (intros ->; cbn in Hi; lia).
  assert (0 < length comb) as Hpos by lia.
  destruct (lookup_lt_is_Some_2 comb (length comb - 1)) as [c Hc]; [lia|].
  cbn in Hout.
  rewrite (semantic_chunking_loop_apart comb 1 _ _ c) in Hout by done.
  cbn in Hout. injection Hout as <-.
  assert (enumerate comb
          = enumerate (take (length comb - 1) comb) ++ [(length comb - 1, c)])
    as Hall.
  { rewrite <- (enumerate_take_S _ _ _ Hc).
    replace (S (length comb - 1)) with (length comb) by lia.
    by rewrite firstn_all. }
  by rewrite Hall, fmap_app.
Qed.

End threshold_one.

(** C8 as it is stated fails: a similarity that is rounded to the [float32]
    above 1 merges two windows whose embeddings differ, and two windows with
    the same embedding, whose similarity is 1, are not merged. *)
Lemma threshold_one_not_identical :
  let P_above := rounding_provider (sim_eq float32_above_1 float32_above_1) round_float32_unit
                   round_float32_unit_mono
                   (sim_eq_rounded round_float32_unit _ _
                      round_float32_unit_above_1 round_float32_unit_above_1) in
  let P_exact := rounding_provider (sim_eq 1 (1 # 2)) round_float32_unit
                   round_float32_unit_mono
                   (sim_eq_rounded round_float32_unit _ _
                      round_float32_unit_1 round_float32_unit_half) in
  (@encode P_above ["x"; "y"]%string = ["x"; "y"]%string
   ∧ "x"%string ≠ "y"%string
   ∧ @semantic_chunking P_above ["x"; "y"]%string 1 None
     = Run 1 (Ok [{| text := "x y"; memberIndices := [0; 1] |}]))
  ∧ (@encode P_exact ["x"; "x"]%string = ["x"; "x"]%string
     ∧ @cosine_similarity P_exact "x"%string "x"%string = 1%Q
     ∧ @semantic_chunking P_exact ["x"; "x"]%string 1 None
       = Run 1 (Ok [{| text := "x"; memberIndices := [0] |};
                    {| text := "x"; memberIndices := [1] |}])).
Proof. split_and!; first [done | vm_compute; reflexivity]. Qed.

Lemma threshold_one_merges_witness :
  let P := rounding_provider (sim_eq 1 float32_above_1) round_float32_unit
             round_float32_unit_mono
             (sim_eq_rounded round_float32_unit _ _
                round_float32_unit_1 round_float32_unit_above_1) in
  let comb := ["x"; "y"; "y"]%string in
  1 ≤ 1 < length comb
  ∧ ∃ e_i e_prev chunks_out,
      @encode P comb !! 1 = Some e_i ∧ @encode P comb !! (1 - 1) = Some e_prev
      ∧ outcome (@semantic_chunking P comb 1 None) = Ok chunks_out
      ∧ let together :=
          ∃ c, c ∈ chunks_out ∧ 1 - 1 ∈ memberIndices c ∧ 1 ∈ memberIndices c in
        (together → (@round_threshold P 1 < @cosine_similarity P e_i e_prev)%Q)
        ∧ ((@cosine_similarity P e_i e_prev <= 1)%Q → ¬ together)
        ∧ ((∀ e e', e ≠ e' → (@cosine_similarity P e e' <= 1)%Q) →
           e_i ≠ e_prev → ¬ together)
        ∧ ((∀ e e', (@cosine_similarity P e e' <= 1)%Q) →
           chunks_out
           = (λ m, {| text := m.2; memberIndices := [m.1] |}) <$> enumerate comb).
Proof.
  intros P comb.
  assert (H : 1 ≤ 1 < length comb) by (cbn; lia).
  split; [exact H|].
  exact (@threshold_one_merges P comb None 1 H).
Defined.

(** ** The scan of an anchor: order and greed *)

(** What one round does to the state, whichever way it leaves the loop. *)
Lemma scan_body_round comb (chunk_limit : Z) (idx : nat) (sim : Q) st f :
  scan_body comb chunk_limit (idx, sim) st = Ok f →
  used st ⊆ used (flow_state f)
  ∧ word_count st ≤ word_count (flow_state f)
  ∧ (chunk (flow_state f) = chunk st
     ∨ ∃ w, comb !! idx = Some w ∧ chunk (flow_state f) = chunk st ++ [(idx, w)])
  ∧ (idx ∈ used (flow_state f)
     ∨ ∃ w, comb !! idx = Some w
            ∧ (chunk_limit < word_count (flow_state f) + word_count_of w)%Z)
  ∧ (∀ st', f = Break st' → (chunk_limit ≤ word_count st')%Z).
Proof.
  intros Hbody.
  destruct (decide (idx ∈ used st)) as [Hu|Hu].
  { rewrite scan_body_used in Hbody by done. simplify_eq. cbn.
    split_and!; [done|done|by left|by left|done]. }
  destruct (comb !! idx) as [w|] eqn:Hw.
  2:{ unfold scan_body in Hbody. rewrite decide_False in Hbody by done.
      by rewrite (getitem_past_end comb idx) in Hbody
        by (by apply lookup_ge_None). }
  rewrite (scan_body_unused _ _ _ _ _ _ Hu Hw) in Hbody. cbv zeta in Hbody.
  destruct (Z.leb_spec (word_count st + word_count_of w) chunk_limit)
    as [Hfit|Hfit].
  - assert (used st ⊆ used (accept st idx w)) by (cbn; set_solver).
    assert (idx ∈ used (accept st idx w)) by (cbn; set_solver).
    destruct (Z.leb_spec chunk_limit (word_count (accept st idx w)));
      simplify_eq; cbn -[accept].
    all: split_and!; [done|cbn; lia|right; by exists w|by left|].
    all: by intros st' [= <-].
  - destruct (Z.leb_spec chunk_limit (word_count st)); simplify_eq; cbn.
    all: split_and!; [done|done|by left|right; exists w; split; [done|lia]|].
    all: by intros st' [= <-].
Qed.

Lemma for_break_scan_facts comb (chunk_limit : Z) (l : list (nat * Q)) st st' :
  for_break l st (scan_body comb chunk_limit) = Ok st' →
  used st ⊆ used st'
  ∧ word_count st ≤ word_count st'
  ∧ (∃ r, r `sublist_of` l ∧ (chunk st').*1 = (chunk st).*1 ++ r.*1)
  ∧ ((chunk_limit ≤ word_count st')%Z
     ∨ ∀ x, x ∈ l →
         x.1 ∈ used st'
         ∨ ∃ w, comb !! x.1 = Some w
                ∧ (chunk_limit < word_count st' + word_count_of w)%Z).
Proof.
  revert st. induction l as [|[idx sim] l IH]; intros st Hrun;
    cbn [for_break] in Hrun.
  - simplify_eq. split_and!; [done..| |].
    + exists []. split; [done|]. by rewrite app_nil_r.
    + right. by intros x ?%elem_of_nil.
  - destruct (scan_body comb chunk_limit (idx, sim) st) as [f|] eqn:Hbody; [|done].
    cbn [mbind result_bind] in Hrun.
    destruct (scan_body_round _ _ _ _ _ _ Hbody)
      as (Hused & Hcount & Hchunk & Hvisit & Hbreak).
    assert (∃ r1, r1 `sublist_of` [(idx, sim)]
                  ∧ (chunk (flow_state f)).*1 = (chunk st).*1 ++ r1.*1) as (r1 & Hr1 & Hc1).
    { destruct Hchunk as [->|(w & _ & ->)].
      - exists []. split; [apply sublist_nil_l|]. by rewrite app_nil_r.
      - exists [(idx, sim)]. split; [done|]. by rewrite fmap_app. }
    destruct f as [st1|st1]; cbn [flow_state] in *.
    + destruct (IH st1 Hrun) as (Hused' & Hcount' & (r & Hr & Hc) & Hmax).
      split_and!; [set_solver|lia| |].
      * exists (r1 ++ r). split.
        -- by apply (sublist_app r1 [(idx, sim)] r l).
        -- by rewrite Hc, Hc1, fmap_app, app_assoc.
      * destruct Hmax as [Hstop|Hmax]; [by left|]. right.
        intros x [->|Hx]%elem_of_cons; [|by apply Hmax]. cbn.
        destruct Hvisit as [Hin|(w & Hw & Hover)]; [left; set_solver|].
        right. exists w. split; [done|]. lia.
    + simplify_eq. split_and!; [done..| |].
      * exists r1. split; [|done].
        by apply (sublist_inserts_r l r1 [(idx, sim)]).
      * left. by apply Hbreak.
Qed.

Lemma for_break_all_used comb (chunk_limit : Z) (l : list (nat * Q)) st :
  (∀ x, x ∈ l → x.1 ∈ used st) →
  for_break l st (scan_body comb chunk_limit) = Ok st.
Proof.
  induction l as [|[idx sim] l IH]; intros Hl; [done|].
  cbn [for_break]. rewrite scan_body_used by (apply (Hl (idx, sim)); by left).
  cbn. apply IH. intros x Hx. apply Hl. by right.
Qed.

Lemma StronglySorted_sublist {A} (R : relation A) (r l : list A) :
  r `sublist_of` l → StronglySorted R l → StronglySorted R r.
Proof.
  induction 1 as [|x r l Hsub IH|x r l Hsub IH]; intros Hs; [done|..].
  - apply StronglySorted_inv in Hs as [Hs Hx]. constructor; [by apply IH|].
    rewrite Forall_forall in Hx. apply Forall_forall. intros y Hy.
    apply Hx. by eapply elem_of_sublist.
  - apply StronglySorted_inv in Hs as [Hs _]. by apply IH.
Qed.

Section anchor_tight.
Context `{P : EmbeddingProvider}.
Implicit Types (comb : list string) (anchor_stride chunk_limit : Z).

Lemma saturated_mono comb chunk_limit (used1 used2 : gset nat) c :
  used1 ⊆ used2 → saturated comb chunk_limit used1 c →
  saturated comb chunk_limit used2 c.
Proof.
  intros Hsub [Hfull|Hover]; [by left|]. right.
  intros i w Hw Hi. apply (Hover i w Hw). set_solver.
Qed.

Lemma anchor_body_tight comb anchor_stride chunk_limit (a : nat) st st' :
  a < length comb → (∃ k : nat, a = k * Z.to_nat anchor_stride) →
  anchors_tight comb anchor_stride chunk_limit st →
  anchor_body comb (encode comb) chunk_limit a st = Ok st' →
  anchors_tight comb anchor_stride chunk_limit st'.
Proof.
  intros Ha Hmult [Hused Hrank Hfull] Hbody.
  pose proof (encode_length comb) as Hemb.
  destruct (scan_anchor_ok comb (encode comb) chunk_limit a st.2 Hemb Ha)
    as (e_a & sc & He & Hsc & [Hnd Hfresh Hu Hcount Hmem Hbud]).
  unfold anchor_body in Hbody. rewrite Hsc in Hbody.
  cbn [mbind result_bind] in Hbody.
  unfold scan_anchor in Hsc. rewrite (getitem_lookup _ _ _ He) in Hsc.
  cbn [mbind result_bind] in Hsc.
  destruct (for_break_scan_facts _ _ _ _ _ Hsc)
    as (Hsub & _ & (r & Hr & Hchunk) & Hmax).
  cbn [chunk used word_count] in Hsub, Hchunk.
  destruct (chunk sc) as [|m ms] eqn:Hcs; injection Hbody as <-;
    constructor; cbn [fst snd].
  - intros i. rewrite Hu. cbn. intros Hi. apply Hused. set_solver.
  - done.
  - eapply Forall_impl; [done|]. intros c. by apply saturated_mono.
  - intros i. rewrite Hu, fmap_app, concat_app. cbn [fmap list_fmap concat].
    rewrite app_nil_r, elem_of_app, elem_of_union, elem_of_list_to_set.
    intros [Hi|Hi]; [by right|]. left. by apply Hused.
  - apply Forall_app. split; [done|]. constructor; [|done].
    exists a, e_a, r. split_and!; [done..|]. exact Hchunk.
  - apply Forall_app. split.
    { eapply Forall_impl; [done|]. intros c. by apply saturated_mono. }
    constructor; [|done]. unfold saturated. rewrite word_count_emit, <- Hcount.
    destruct Hmax as [Hstop|Hmax]; [left; by specialize (Hbud ltac:(done)); lia|].
    right. intros i w Hw Hi.
    assert (i ∈ (ranked_for (encode comb) e_a).*1) as Hin.
    { rewrite ranked_for_indices, Hemb. apply elem_of_seq.
      apply lookup_lt_Some in Hw. lia. }
    apply list_elem_of_fmap in Hin as (x & -> & Hx).
    destruct (Hmax x Hx) as [?|(w' & Hw' & Hover)]; [done|].
    by simplify_eq.
Qed.

Lemma for_each_anchors_tight comb anchor_stride chunk_limit (anchors : list nat)
    st st' :
  Forall (λ a, a < length comb ∧ ∃ k : nat, a = k * Z.to_nat anchor_stride) anchors →
  anchors_tight comb anchor_stride chunk_limit st →
  for_each anchors st (anchor_body comb (encode comb) chunk_limit) = Ok st' →
  anchors_tight comb anchor_stride chunk_limit st'.
Proof.
  intros Hanch. revert st.
  induction Hanch as [|a anchors [Ha Hmult] _ IH]; intros st Htight Hrun;
    cbn [for_each] in Hrun.
  - by simplify_eq.
  - destruct (anchor_body comb (encode comb) chunk_limit a st) as [st1|] eqn:Hbody;
      [|done].
    cbn [mbind result_bind] in Hrun. apply (IH st1); [|done].
    by eapply anchor_body_tight.
Qed.

Lemma range_step_multiples (n : nat) (step : Z) (anchors : list nat) :
  range_step n step = Ok anchors →
  Forall (λ a, a < n ∧ ∃ k : nat, a = k * Z.to_nat step) anchors.
Proof.
  intros Hr. assert (step ≠ 0%Z) as Hstep.
  { intros ->. unfold range_step in Hr. by rewrite decide_True in Hr. }
  destruct (range_step_ok n step Hstep) as (anchors' & Hr' & Hlt & _).
  rewrite Hr in Hr'. simplify_eq.
  unfold range_step in Hr. rewrite decide_False in Hr by done.
  destruct (decide (step < 0)%Z); simplify_eq; [constructor|].
  rewrite Forall_forall in Hlt. apply Forall_forall. intros a Ha.
  split; [by apply Hlt|].
  apply list_elem_of_fmap in Ha as (k & -> & _). by exists k.
Qed.

Lemma semantic_cluster_chunking_tight comb anchor_stride chunk_limit :
  anchor_stride ≠ 0%Z →
  ∃ st,
    outcome (semantic_cluster_chunking comb anchor_stride chunk_limit) = Ok st.1
    ∧ anchors_ok comb chunk_limit st
    ∧ anchors_tight comb anchor_stride chunk_limit st.
Proof.
  intros Hstride.
  destruct (semantic_cluster_chunking_ok comb anchor_stride chunk_limit Hstride)
    as (anchors & st & Hr & Hrun & Hout & Hok).
  exists st. split_and!; [done..|].
  eapply for_each_anchors_tight; [by apply range_step_multiples| |done].
  constructor; cbn; [|constructor..]. by intros i ?%elem_of_empty.
Qed.

(** X6. The chunk of an anchor lists its windows in the order of the
    anchor's ranking: every chunk of the anchor chunker is, for some anchor
    position (a multiple of the stride), a selection of the candidates of
    that anchor's ranking in ranking order, that is by descending similarity
    to the anchor and, for equal similarities, by ascending index. *)
Theorem anchor_rank_order comb anchor_stride chunk_limit :
  anchor_stride ≠ 0%Z →
  ∃ out,
    outcome (semantic_cluster_chunking comb anchor_stride chunk_limit) = Ok out
    ∧ Forall (λ c, ∃ (a : nat) (e_a : embedding) (r : list (nat * Q)),
                a < length comb ∧ (∃ k : nat, a = k * Z.to_nat anchor_stride)
                ∧ encode comb !! a = Some e_a
                ∧ r `sublist_of` ranked_for (encode comb) e_a
                ∧ StronglySorted ranks_before r
                ∧ memberIndices c = r.*1) out.
Proof.
  intros Hstride.
  destruct (semantic_cluster_chunking_tight comb anchor_stride chunk_limit Hstride)
    as (st & Hout & _ & [_ Hrank _]).
  exists st.1. split; [done|].
  eapply Forall_impl; [done|].
  intros c (a & e_a & r & Ha & Hk & He & Hr & Hc).
  exists a, e_a, r. split_and!; [done..| |done].
  eapply StronglySorted_sublist; [done|]. apply ranked_for_sorted.
Qed.

(** X7. A window that ends up in no chunk of the anchor chunker fits in none
    of them: the text of each emitted chunk has exactly [chunk_limit] words,
    or would have more than [chunk_limit] with the words of that window. *)
Theorem anchor_dropped_do_not_fit comb anchor_stride chunk_limit :
  anchor_stride ≠ 0%Z →
  ∃ out,
    outcome (semantic_cluster_chunking comb anchor_stride chunk_limit) = Ok out
    ∧ ∀ (i : nat) (w : string),
        comb !! i = Some w → (∀ c, c ∈ out → i ∉ memberIndices c) →
        Forall (λ c, Z.of_nat (word_count_of (text c)) = chunk_limit
                     ∨ (chunk_limit < word_count_of (text c) + word_count_of w)%Z)
          out.
Proof.
  intros Hstride.
  destruct (semantic_cluster_chunking_tight comb anchor_stride chunk_limit Hstride)
    as (st & Hout & _ & [Hused _ Hfull]).
  exists st.1. split; [done|]. intros i w Hw Hdropped.
  assert (i ∉ st.2) as Hi.
  { intros Hin. apply Hused, elem_of_concat in Hin as (g & Hg & Hig).
    apply list_elem_of_fmap in Hg as (c & -> & Hc). by apply (Hdropped c Hc). }
  eapply Forall_impl; [done|]. intros c [Hfull'|Hover]; [by left|].
  right. by apply (Hover i w).
Qed.

End anchor_tight.

(** ** The anchor chunker: how many chunks *)

Section anchor_count.
Context `{P : EmbeddingProvider}.
Implicit Types (comb : list string) (anchor_stride chunk_limit : Z).

Lemma for_each_anchors_length comb chunk_limit (anchors : list nat) st st' :
  for_each anchors st (anchor_body comb (encode comb) chunk_limit) = Ok st' →
  length st'.1 ≤ length st.1 + length anchors.
Proof.
  revert st. induction anchors as [|a anchors IH]; intros st Hrun;
    cbn [for_each] in Hrun.
  - simplify_eq. cbn. lia.
  - destruct (anchor_body comb (encode comb) chunk_limit a st) as [st1|] eqn:Hbody;
      [|done].
    cbn [mbind result_bind] in Hrun. apply IH in Hrun.
    unfold anchor_body in Hbody.
    destruct (scan_anchor _ _ _ _ _) as [sc|]; [|done].
    cbn [mbind result_bind] in Hbody.
    destruct (chunk sc); injection Hbody as <-; cbn in *;
      [|rewrite length_app in Hrun; cbn in Hrun]; lia.
Qed.

(** X8. With a positive stride the anchor chunker emits at most one chunk
    per anchor, that is at most [ceil(len(comb) / anchor_stride)] chunks; at
    most one when the stride is at least the number of windows. *)
Theorem anchor_chunk_count comb anchor_stride chunk_limit :
  (0 < anchor_stride)%Z →
  ∃ out,
    outcome (semantic_cluster_chunking comb anchor_stride chunk_limit) = Ok out
    ∧ (length out ≤ (length comb + anchor_stride - 1) / anchor_stride)%Z
    ∧ ((length comb ≤ anchor_stride)%Z → length out ≤ 1).
Proof.
  intros Hstride.
  destruct (semantic_cluster_chunking_ok comb anchor_stride chunk_limit)
    as (anchors & st & Hr & Hrun & Hout & _); [lia|].
  exists st.1. split; [done|].
  apply for_each_anchors_length in Hrun. cbn [fst length] in Hrun.
  unfold range_step in Hr. rewrite decide_False in Hr by lia.
  rewrite decide_False in Hr by lia. injection Hr as <-.
  rewrite length_fmap, length_seq in Hrun.
  assert (0 ≤ (length comb + anchor_stride - 1) / anchor_stride)%Z as Hq
    by (apply Z.div_pos; lia).
  split; [lia|]. intros Hfew.
  assert ((length comb + anchor_stride - 1) / anchor_stride < 2)%Z
    by (apply Z.div_lt_upper_bound; lia).
  lia.
Qed.

End anchor_count.

(** ** The anchor chunker: a limit above the whole text *)

Lemma sum_list_with_fmap {A B} (g : B → nat) (f : A → B) (l : list A) :
  sum_list_with g (f <$> l) = sum_list_with (λ x, g (f x)) l.
Proof. induction l as [|x l IH]; [done|]. cbn. by rewrite IH. Qed.

Lemma words_at_total (comb : list string) :
  sum_list_with (words_at comb) (seq 0 (length comb))
  = sum_list_with word_count_of comb.
Proof.
  unfold words_at.
  rewrite <- (sum_list_with_fmap word_count_of (λ i, default EmptyString (comb !! i))).
  f_equal. apply list_eq. intros i. rewrite list_lookup_fmap.
  destruct (comb !! i) as [w|] eqn:Hw.
  - rewrite lookup_seq_lt by (by eapply lookup_lt_Some). cbn. by rewrite Hw.
  - by rewrite lookup_seq_ge by (by apply lookup_ge_None).
Qed.

Lemma for_break_accept_all comb (chunk_limit : Z) (l : list (nat * Q)) st :
  NoDup l.*1 → (∀ x, x ∈ l → x.1 ∉ used st) →
  Forall (λ x : nat * Q, x.1 < length comb) l →
  (word_count st + sum_list_with (words_at comb) l.*1 < chunk_limit)%Z →
  ∃ ms, ms.*1 = l.*1 ∧ members_of comb ms
        ∧ for_break l st (scan_body comb chunk_limit)
          = Ok (ScanState (chunk st ++ ms) (list_to_set l.*1 ∪ used st)
                  (word_count st + words_of ms)).
Proof.
  revert st. induction l as [|[idx sim] l IH]; intros st Hnd Hfresh Hrange Hsum.
  - exists []. split_and!; [done|constructor|]. cbn.
    rewrite app_nil_r, Nat.add_0_r. destruct st as [c u n]. cbn.
    f_equal. f_equal. set_solver.
  - cbn [fmap list_fmap fst] in Hnd, Hsum.
    apply NoDup_cons in Hnd as [Hidx Hnd].
    apply Forall_cons in Hrange as [Hlt Hrange]. cbn in Hlt.
    destruct (lookup_lt_is_Some_2 comb idx Hlt) as [w Hw].
    assert (words_at comb idx = word_count_of w) as Hwords
      by (unfold words_at; by rewrite Hw).
    cbn [sum_list_with] in Hsum. rewrite Hwords in Hsum.
    assert (idx ∉ used st) as Hu by (apply (Hfresh (idx, sim)); by left).
    cbn [for_break]. rewrite (scan_body_unused _ _ _ _ _ _ Hu Hw). cbv zeta.
    rewrite (proj2 (Z.leb_le (word_count st + word_count_of w) chunk_limit))
      by lia.
    rewrite (proj2 (Z.leb_gt chunk_limit (word_count (accept st idx w))))
      by (cbn; lia).
    cbn [mbind result_bind].
    destruct (IH (accept st idx w)) as (ms & Hms1 & Hms & Hrun); [done| |done| |].
    { intros x Hx. cbn. apply not_elem_of_union. split.
      - apply not_elem_of_singleton. intros Heq. apply Hidx.
        rewrite <- Heq. apply list_elem_of_fmap. by exists x.
      - apply Hfresh. by right. }
    { cbn. lia. }
    exists ((idx, w) :: ms). split_and!.
    + cbn. by rewrite Hms1.
    + by constructor.
    + rewrite Hrun. cbn [accept chunk used word_count].
      f_equal. rewrite <- app_assoc. cbn [app].
      change (words_of ((idx, w) :: ms)) with (word_count_of w + words_of ms).
      f_equal; [|lia].
      cbn [fmap list_fmap fst list_to_set foldr]. set_solver.
Qed.

Section anchor_large_limit.
Context `{P : EmbeddingProvider}.
Implicit Types (comb : list string) (anchor_stride chunk_limit : Z).

Lemma anchor_body_all_used comb chunk_limit (a : nat) (chunks_so_far : list Chunk)
    (used_all : gset nat) :
  a < length comb → (∀ i, i < length comb → i ∈ used_all) →
  anchor_body comb (encode comb) chunk_limit a (chunks_so_far, used_all)
  = Ok (chunks_so_far, used_all).
Proof.
  intros Ha Hall. pose proof (encode_length comb) as Hemb.
  destruct (lookup_lt_is_Some_2 (encode comb) a) as [e_a He]; [lia|].
  unfold anchor_body, scan_anchor. rewrite (getitem_lookup _ _ _ He).
  cbn [mbind result_bind snd].
  rewrite for_break_all_used; [done|].
  intros x Hx. cbn. apply Hall.
  pose proof (ranked_for_in_range comb (encode comb) e_a Hemb) as Hrange.
  rewrite Forall_forall in Hrange. by apply Hrange.
Qed.

(** X9. When the stride is positive and the words of all windows together
    stay below [chunk_limit], the anchor chunker returns one chunk: anchor 0
    takes every window, in the order of its ranking, and the later anchors
    find nothing left. *)
Theorem anchor_one_chunk comb anchor_stride chunk_limit :
  (0 < anchor_stride)%Z → comb ≠ [] →
  (sum_list_with word_count_of comb < chunk_limit)%Z →
  ∃ (e_0 : embedding) (ms : list (nat * string)),
    encode comb !! 0 = Some e_0
    ∧ ms.*1 = (ranked_for (encode comb) e_0).*1
    ∧ ms.*1 ≡ₚ seq 0 (length comb)
    ∧ members_of comb ms
    ∧ outcome (semantic_cluster_chunking comb anchor_stride chunk_limit)
      = Ok [emit ms].
Proof.
  intros Hstride Hne Htotal. pose proof (encode_length comb) as Hemb.
  assert (0 < length comb) as Hpos by (destruct comb; [done | cbn; lia]).
  destruct (lookup_lt_is_Some_2 (encode comb) 0) as [e_0 He]; [lia|].
  pose proof (ranked_for_indices (encode comb) e_0) as Hperm.
  rewrite Hemb in Hperm.
  destruct (for_break_accept_all comb chunk_limit (ranked_for (encode comb) e_0)
              (ScanState [] ∅ 0)) as (ms & Hms1 & Hms & Hscan).
  { rewrite Hperm. apply NoDup_seq. }
  { intros x _. cbn. set_solver. }
  { by apply ranked_for_in_range. }
  { cbn [word_count]. rewrite Hperm, words_at_total. lia. }
  exists e_0, ms. split_and!; [done|done|by rewrite Hms1|done|].
  destruct (range_step_ok (length comb) anchor_stride)
    as (anchors & Hr & Hlt & _ & Hhead); [lia|].
  destruct anchors as [|a0 anchors]; [by specialize (Hhead Hpos Hstride)|].
  specialize (Hhead Hpos Hstride). cbn in Hhead. simplify_eq.
  apply Forall_cons in Hlt as [_ Hlt].
  cbn [semantic_cluster_chunking outcome]. rewrite Hr.
  cbn [mbind result_bind for_each].
  assert (ms ≠ []) as Hnonempty.
  { intros ->. cbn in Hms1. rewrite <- Hms1 in Hperm.
    apply Permutation_length in Hperm. rewrite length_seq in Hperm.
    cbn in Hperm. lia. }
  assert (anchor_body comb (encode comb) chunk_limit 0 ([], ∅)
          = Ok ([emit ms],
                list_to_set (ranked_for (encode comb) e_0).*1 ∪ (∅ : gset nat)))
    as ->.
  { unfold anchor_body, scan_anchor. rewrite (getitem_lookup _ _ _ He).
    cbn [mbind result_bind snd]. rewrite Hscan. cbn [mbind result_bind chunk app].
    by destruct ms. }
  cbn [mbind result_bind].
  assert (∀ l st, Forall (λ a, a < length comb) l →
            (∀ i, i < length comb → i ∈ st.2) →
            for_each l st (anchor_body comb (encode comb) chunk_limit) = Ok st)
    as Hrest.
  { induction l as [|a l IH]; intros [cs u] Hl Hu; [done|].
    apply Forall_cons in Hl as [Ha Hl]. cbn [for_each].
    rewrite anchor_body_all_used by done. cbn [mbind result_bind].
    by apply IH. }
  rewrite Hrest; [done|done|].
  intros i Hi. cbn. apply elem_of_union_l, elem_of_list_to_set.
  rewrite Hperm. apply elem_of_seq. lia.
Qed.

End anchor_large_limit.

(** ** The window combiner: a buffer as long as the text *)

Lemma glue_app (l1 l2 : list string) : glue (l1 ++ l2) = glue l1 +:+ glue l2.
Proof.
  induction l1 as [|x l1 IH]; [done|].
  cbn [app glue foldr]. fold (glue (l1 ++ l2)). fold (glue l1).
  by rewrite IH, string_app_assoc.
Qed.

Lemma window_spec_whole (sents : list SentenceRecord) (b : Z) (i : nat) :
  i < length sents → (length sents - 1 ≤ b)%Z →
  window_spec sents b i = glue (sentences <$> sents).
Proof.
  intros Hi Hb. unfold window_spec, span.
  replace (Z.to_nat (Z.max 0 (i - b))) with 0 by lia.
  replace (Z.to_nat (i + 1 - Z.max 0 (i - b))) with (S i) by lia.
  replace (Z.to_nat (i + 1)) with (S i) by lia.
  rewrite drop_0, (take_ge (drop (S i) sents))
    by (rewrite length_drop; lia).
  by rewrite <- glue_app, <- fmap_app, take_drop.
Qed.

(** X10. When the buffer covers the whole text ([buffer_size >= len - 1])
    every window [func] returns is the whole text: the texts of all
    sentences, concatenated. *)
Theorem func_whole_text (sents : list SentenceRecord) (buffer_size : Z) :
  (length sents - 1 ≤ buffer_size)%Z →
  func sents buffer_size
  = Ok (replicate (length sents) (glue (sentences <$> sents))).
Proof.
  intros Hb. destruct (decide (buffer_size < 0)%Z) as [Hneg|Hpos].
  - destruct sents; [done|]. cbn in Hb. lia.
  - rewrite func_spec by lia. f_equal.
    apply list_eq. intros i.
    destruct (decide (i < length sents)) as [Hi|Hi].
    + rewrite list_lookup_fmap, lookup_seq_lt, lookup_replicate_2 by done.
      cbn. f_equal. by apply window_spec_whole.
    + rewrite list_lookup_fmap, lookup_seq_ge by lia.
      symmetry. apply lookup_replicate_None. lia.
Qed.

(** ** Indexing: the ids of the requests *)

Global Instance chunk_id_inj : Inj (=) (=) chunk_id.
Proof.
  intros i j Heq. unfold chunk_id in Heq.
  apply (inj (String.app "id-")) in Heq. by apply (inj pretty) in Heq.
Qed.

Section indexing_results.
Context `{P : EmbeddingProvider}.

Lemma chroma_activate_loop (l : list string) (a : nat)
    (collection : list AddRequest) :
  ∃ requests,
    for_each (zip (seq a (length l)) l) collection
      (λ '(i, text) collection,
         embedding ← getitem (encode [text]) 0%nat;
         mret (collection ++ [{| documents := [text];
                                 embeddings := [embedding];
                                 ids := [chunk_id i] |}]))
    = Ok (collection ++ requests)
    ∧ length requests = length l
    ∧ concat (ids <$> requests) = chunk_id <$> seq a (length l)
    ∧ ∀ (j : nat) (text : string), l !! j = Some text →
        ∃ e, encode [text] = [e]
             ∧ requests !! j = Some {| documents := [text]; embeddings := [e];
                                       ids := [chunk_id (a + j)] |}.
Proof.
  revert a collection. induction l as [|text l IH]; intros a collection.
  - exists []. split_and!; [by rewrite app_nil_r|done..].
  - assert (∃ e, encode [text] = [e]) as [e He].
    { pose proof (encode_length [text]) as Hlen.
      destruct (encode [text]) as [|e [|? ?]]; try done. by exists e. }
    cbn [length seq].
    change (zip (a :: seq (S a) (length l)) (text :: l))
      with ((a, text) :: zip (seq (S a) (length l)) l).
    cbn [for_each]. rewrite He, (getitem_lookup [e] 0 e eq_refl).
    cbn [mbind result_bind mret result_ret].
    destruct (IH (S a) (collection ++ [{| documents := [text]; embeddings := [e];
                                          ids := [chunk_id a] |}]))
      as (requests & Hrun & Hlen & Hids & Hlookup).
    eexists (_ :: requests). split_and!.
    + rewrite Hrun. by rewrite <- app_assoc.
    + cbn. by rewrite Hlen.
    + cbn. by rewrite Hids.
    + intros [|j] text' Hj; cbn in Hj.
      * simplify_eq. exists e. by rewrite Nat.add_0_r.
      * destruct (Hlookup j text' Hj) as (e' & He' & Hr).
        exists e'. split; [done|]. cbn.
        by replace (a + S j) with (S a + j) by lia.
Qed.

(** X11. [chroma_activate] leaves the requests the collection already has
    and adds one per chunk, in order: the chunk text as the only document,
    its embedding computed on its own, and the id ["id-<position>"].  The
    ids of one call are pairwise distinct.  They depend on the position only,
    so a second call on the same collection issues ["id-0"] again. *)
Theorem chroma_activate_requests (chunks : list string)
    (collection : list AddRequest) :
  ∃ requests,
    chroma_activate chunks collection = Ok (collection ++ requests)
    ∧ length requests = length chunks
    ∧ (∀ (i : nat) (text : string), chunks !! i = Some text →
         ∃ e, encode [text] = [e]
              ∧ requests !! i = Some {| documents := [text]; embeddings := [e];
                                        ids := [chunk_id i] |})
    ∧ concat (ids <$> requests) = chunk_id <$> seq 0 (length chunks)
    ∧ NoDup (concat (ids <$> requests))
    ∧ ∀ chunks2, chunks ≠ [] → chunks2 ≠ [] →
        ∃ requests2,
          chroma_activate chunks2 (collection ++ requests)
          = Ok ((collection ++ requests) ++ requests2)
          ∧ ¬ NoDup (concat (ids <$> requests ++ requests2)).
Proof.
  destruct (chroma_activate_loop chunks 0 collection)
    as (requests & Hrun & Hlen & Hids & Hlookup).
  exists requests. split_and!; [done..| | |].
  - by rewrite Hids.
  - rewrite Hids. apply NoDup_fmap_2; [apply _|apply NoDup_seq].
  - intros chunks2 Hne Hne2.
    destruct (chroma_activate_loop chunks2 0 (collection ++ requests))
      as (requests2 & Hrun2 & Hlen2 & Hids2 & _).
    exists requests2. split; [done|].
    rewrite fmap_app, concat_app, Hids, Hids2.
    destruct chunks as [|c1 chunks]; [done|].
    destruct chunks2 as [|c2 chunks2]; [done|].
    cbn [length seq fmap list_fmap app].
    intros Hnd. apply NoDup_cons in Hnd as [Hnotin _].
    apply Hnotin. apply elem_of_app. right. apply elem_of_cons. by left.
Qed.

End indexing_results.

(** ** The sentence segmenter *)

Lemma newline_is_space (c : ascii) : (c =? newline)%char = true → is_space c = true.
Proof. by intros ->%Ascii.eqb_eq. Qed.

Lemma letters_cons (c : ascii) (s : string) :
  letters (String c s) = if is_space c then letters s else c :: letters s.
Proof.
  unfold letters. cbn [list_ascii_of_string]. rewrite filter_cons.
  destruct (is_space c); by rewrite ?decide_True, ?decide_False by done.
Qed.

Lemma letters_app (a b : string) : letters (a +:+ b) = letters a ++ letters b.
Proof.
  induction a as [|c a IH]; [done|].
  change (String c a +:+ b) with (String c (a +:+ b)).
  rewrite !letters_cons, IH. by destruct (is_space c).
Qed.

Lemma letters_lstrip (s : string) : letters (lstrip s) = letters s.
Proof.
  induction s as [|c s IH]; [done|]. cbn [lstrip].
  destruct (is_space c) eqn:Hc; [|done]. by rewrite IH, letters_cons, Hc.
Qed.

Lemma letters_rstrip (s : string) : letters (rstrip s) = letters s.
Proof.
  induction s as [|c s IH]; [done|]. cbn [rstrip].
  rewrite (letters_cons c s), <- IH.
  destruct (rstrip s) as [|c' r].
  - destruct (is_space c) eqn:Hc; [done|]. by rewrite letters_cons, Hc.
  - by rewrite (letters_cons c).
Qed.

Lemma letters_split (s : string) (mode : split_mode) (piece : string) :
  (match mode with InText _ => True | _ => piece = EmptyString end) →
  letters (glue (re_split_go mode piece s)) = letters piece ++ letters s.
Proof.
  revert mode piece.
  induction s as [|c s IH]; intros mode piece Hpiece.
  - cbn. by rewrite string_app_empty_r, app_nil_r.
  - rewrite (letters_cons c s). cbn [re_split_go]. destruct mode as [prev| |].
    + destruct (from_option is_terminal false prev && is_space c) eqn:Hfirst.
      { apply andb_true_iff in Hfirst as [_ Hc]. rewrite Hc.
        cbn [glue foldr]. fold (glue (re_split_go InSpaces "" s)).
        by rewrite letters_app, IH. }
      destruct ((c =? newline)%char && starts_with_newline s) eqn:Hsecond.
      { apply andb_true_iff in Hsecond as [Hc%newline_is_space _]. rewrite Hc.
        cbn [glue foldr]. fold (glue (re_split_go InNewlines "" s)).
        by rewrite letters_app, IH. }
      rewrite IH by done. rewrite letters_app, letters_cons, <- app_assoc.
      by destruct (is_space c).
    + subst piece. destruct (is_space c) eqn:Hc; rewrite IH by done; [done|].
      by rewrite letters_cons, Hc.
    + subst piece. destruct (c =? newline)%char eqn:Hn.
      * rewrite (newline_is_space c Hn). by rewrite IH.
      * rewrite IH by done. rewrite letters_cons.
        by destruct (is_space c).
Qed.

(** X12. Segmentation loses no text: the characters of the sentences that
    are no whitespace are, in order, those of the text; only whitespace is
    dropped, at the ends of the text and between sentences. *)
Theorem split_sentences_letters (full_clean_text : string) :
  letters (glue (split_sentences full_clean_text)) = letters full_clean_text.
Proof.
  unfold split_sentences. rewrite (letters_split _ (InText None)) by done.
  unfold strip. by rewrite letters_rstrip, letters_lstrip.
Qed.

Lemma ends_with_text_cons (c : ascii) (s : string) :
  ends_with_text (String c s) = true →
  (s = EmptyString ∧ is_space c = false) ∨ ends_with_text s = true.
Proof.
  destruct s as [|c' s']; cbn; [|by right].
  intros Hc%negb_true_iff. by left.
Qed.

Lemma re_split_go_nonempty (s : string) (mode : split_mode) (piece : string) :
  match mode with
  | InText _ => piece ≠ EmptyString ∧ (s = EmptyString ∨ ends_with_text s = true)
  | _ => ends_with_text s = true
  end →
  Forall (λ x, x ≠ EmptyString) (re_split_go mode piece s).
Proof.
  revert mode piece. induction s as [|c s IH]; intros mode piece Hmode.
  - destruct mode; [|done..]. destruct Hmode as [Hp _]. by repeat constructor.
  - assert (∀ p, p ≠ EmptyString →
              ends_with_text (String c s) = true →
              Forall (λ x, x ≠ EmptyString) (re_split_go (InText (Some c)) p s))
      as Htext.
    { intros p Hp [[-> _]|Hs]%ends_with_text_cons; apply IH; by auto. }
    assert (is_space c = true → ends_with_text (String c s) = true →
              ends_with_text s = true) as Hskip.
    { intros Hc [[_ Hc']|Hs]%ends_with_text_cons; [congruence|done]. }
    cbn [re_split_go]. destruct mode as [prev| |].
    + destruct Hmode as [Hp [?|Hends]]; [done|].
      destruct (from_option is_terminal false prev && is_space c) eqn:Hfirst.
      { apply andb_true_iff in Hfirst as [_ Hc].
        constructor; [done|]. apply IH. by apply Hskip. }
      destruct ((c =? newline)%char && starts_with_newline s) eqn:Hsecond.
      { apply andb_true_iff in Hsecond as [Hc%newline_is_space _].
        constructor; [done|]. apply IH. by apply Hskip. }
      apply Htext; [|done]. by destruct piece.
    + destruct (is_space c) eqn:Hc; [apply IH; by apply Hskip|].
      by apply Htext.
    + destruct (c =? newline)%char eqn:Hn.
      * apply IH. apply Hskip; [by apply newline_is_space|done].
      * by apply Htext.
Qed.

Lemma re_split_go_not_nil (s : string) (mode : split_mode) (piece : string) :
  re_split_go mode piece s ≠ [].
Proof.
  revert mode piece. induction s as [|c s IH]; intros mode piece; [done|].
  cbn [re_split_go]. destruct mode; repeat case_match; try done; apply IH.
Qed.

Lemma rstrip_ends (s : string) :
  rstrip s = EmptyString ∨ ends_with_text (rstrip s) = true.
Proof.
  induction s as [|c s IH]; [by left|]. cbn [rstrip].
  destruct (rstrip s) as [|c' r].
  - destruct (is_space c) eqn:Hc; [by left|]. right. cbn. by rewrite Hc.
  - right. by destruct IH.
Qed.

Lemma strip_cases (s : string) :
  strip s = EmptyString
  ∨ ∃ c r, strip s = String c r ∧ is_space c = false
           ∧ ends_with_text (strip s) = true.
Proof.
  unfold strip.
  assert (lstrip s = EmptyString
          ∨ ∃ c r, lstrip s = String c r ∧ is_space c = false) as [->|Hl].
  { induction s as [|c s IH]; [by left|]. cbn [lstrip].
    destruct (is_space c) eqn:Hc; [done|]. right. by exists c, s. }
  - by left.
  - destruct Hl as (c & r & -> & Hc). right.
    destruct (rstrip_ends (String c r)) as [Hempty|Hends].
    + cbn [rstrip] in Hempty. rewrite Hc in Hempty. by destruct (rstrip r).
    + cbn [rstrip] in *. destruct (rstrip r) as [|c' r'].
      * rewrite Hc in *. by exists c, EmptyString.
      * by exists c, (String c' r').
Qed.

(** X13. The segmenter never returns an empty list.  A text of whitespace
    only gives the one sentence [""]; any other text gives sentences none
    of which is empty. *)
Theorem split_sentences_nonempty (full_clean_text : string) :
  split_sentences full_clean_text ≠ []
  ∧ (strip full_clean_text = EmptyString →
     split_sentences full_clean_text = [EmptyString])
  ∧ (strip full_clean_text ≠ EmptyString →
     Forall (λ x, x ≠ EmptyString) (split_sentences full_clean_text)).
Proof.
  unfold split_sentences.
  destruct (strip_cases full_clean_text) as [->|(c & r & Hs & Hc & Hends)].
  - by split_and!.
  - assert (Forall (λ x, x ≠ EmptyString)
              (re_split_go (InText None) EmptyString (strip full_clean_text)))
      as Hall.
    { rewrite Hs in *. cbn [re_split_go from_option andb].
      assert ((c =? newline)%char = false) as ->.
      { destruct (c =? newline)%char eqn:Hn; [|done].
        apply newline_is_space in Hn. congruence. }
      cbn [andb].
      apply re_split_go_nonempty. split; [done|].
      apply ends_with_text_cons in Hends as [[-> _]|?]; by auto. }
    split_and!; [apply re_split_go_not_nil|by rewrite Hs|done].
Qed.

(** ** The flow of the notebook *)

Lemma mk_sentences_length (s : list string) : length (mk_sentences s) = length s.
Proof.
  unfold mk_sentences.
  by rewrite length_fmap, <- (length_fmap snd (enumerate s)), enumerate_snd.
Qed.

(** X14. The flow of the notebook never fails: for every text the segmenter,
    the records and [func] with [buffer_size = 1] give as many windows as
    there are sentences, at least one, and on these windows the sequential
    chunker returns at least one chunk and the anchor chunker returns, for
    every threshold, every limit and every stride other than zero. *)
Theorem notebook_flow `{P : EmbeddingProvider} (full_clean_text : string)
    (threshold : Q) (chunk_limit : option Z) (anchor_stride word_limit : Z) :
  anchor_stride ≠ 0%Z →
  ∃ comb,
    notebook_comb full_clean_text = Ok comb
    ∧ length comb = length (split_sentences full_clean_text)
    ∧ comb ≠ []
    ∧ (∃ out, outcome (semantic_chunking comb threshold chunk_limit) = Ok out
              ∧ out ≠ [])
    ∧ (∃ out, outcome (semantic_cluster_chunking comb anchor_stride word_limit)
              = Ok out).
Proof.
  intros Hstride. unfold notebook_comb. rewrite func_spec by lia.
  set (sents := mk_sentences (split_sentences full_clean_text)).
  set (comb := window_spec sents 1 <$> seq 0 (length sents)).
  exists comb. split; [done|].
  assert (length comb = length (split_sentences full_clean_text)) as Hlen.
  { unfold comb, sents. by rewrite length_fmap, length_seq, mk_sentences_length. }
  assert (split_sentences full_clean_text ≠ []) as Hne
    by apply re_split_go_not_nil.
  assert (comb ≠ []) as Hcomb.
  { intros Hnil. rewrite Hnil in Hlen. cbn in Hlen.
    by destruct (split_sentences full_clean_text). }
  split_and!; [done..| |].
  - destruct (semantic_chunking_Ok comb threshold chunk_limit Hcomb)
      as (st & _ & _ & Hout).
    eexists. split; [done|]. by destruct (chunks st).
  - destruct (semantic_cluster_chunking_ok comb anchor_stride word_limit Hstride)
      as (anchors & st & _ & _ & Hout & _).
    by eexists.
Qed.

(** ** The further theorems at concrete inputs *)

Lemma demo_similarity_bounds (a b : string) :
  (@cosine_similarity demo_provider a b <= 1)%Q
  ∧ (1 # 4 < @cosine_similarity demo_provider a b)%Q.
Proof.
  cbn. unfold sim_eq. destruct (decide (a = b)); split; by vm_compute.
Qed.

Lemma sequential_text_budget_witness :
  ∃ out,
    outcome (@semantic_chunking demo_provider three_comb (3 # 4) (Some 5%Z)) = Ok out
    ∧ Forall (λ c, (word_count_of (text c) ≤ default 512%Z (Some 5%Z))%Z
                   ∨ ∃ (i : nat) (w : string),
                       three_comb !! i = Some w
                       ∧ c = {| text := w; memberIndices := [i] |}) out.
Proof.
  apply (@sequential_text_budget demo_provider three_comb (3 # 4) (Some 5%Z)).
  discriminate.
Defined.

Lemma anchor_text_budget_witness :
  ∃ out,
    outcome (@semantic_cluster_chunking demo_provider six_comb 5 3) = Ok out
    ∧ Forall (λ c, ∃ ms, c = emit ms ∧ members_of six_comb ms
                         ∧ word_count_of (text c) = words_of ms
                         ∧ (word_count_of (text c) ≤ 3)%Z) out.
Proof. apply (@anchor_text_budget demo_provider six_comb 5 3). lia. Defined.

Lemma sequential_slices_witness :
  ∃ out,
    outcome (@semantic_chunking demo_provider three_comb (3 # 4) (Some 5%Z)) = Ok out
    ∧ 1 ≤ length out ≤ length three_comb
    ∧ Forall (λ c, ∃ start,
                memberIndices c = seq start (length (memberIndices c))
                ∧ memberIndices c ≠ []
                ∧ text c = join " " (take (length (memberIndices c))
                                       (drop start three_comb))) out.
Proof.
  apply (@sequential_slices demo_provider three_comb (3 # 4) (Some 5%Z)).
  discriminate.
Defined.

Lemma sequential_all_apart_witness :
  outcome (@semantic_chunking demo_provider three_comb 1 None)
  = Ok ((λ m, {| text := m.2; memberIndices := [m.1] |}) <$> enumerate three_comb).
Proof.
  apply (@sequential_all_apart demo_provider three_comb 1 None).
  - discriminate.
  - intros i e_i e_prev _ _. apply demo_similarity_bounds.
Defined.

Lemma sequential_all_together_witness :
  outcome (@semantic_chunking demo_provider three_comb (1 # 4) None)
  = Ok [{| text := join " " three_comb;
           memberIndices := seq 0 (length three_comb) |}].
Proof.
  apply (@sequential_all_together demo_provider three_comb (1 # 4) None).
  - discriminate.
  - intros i e_i e_prev _ _. apply demo_similarity_bounds.
  - vm_compute. discriminate.
Defined.

Lemma anchor_rank_order_witness :
  ∃ out,
    outcome (@semantic_cluster_chunking demo_provider six_comb 5 3) = Ok out
    ∧ Forall (λ c, ∃ (a : nat) (e_a : @embedding demo_provider)
                     (r : list (nat * Q)),
                a < length six_comb ∧ (∃ k : nat, a = k * Z.to_nat 5)
                ∧ (@encode demo_provider six_comb) !! a = Some e_a
                ∧ r `sublist_of` @ranked_for demo_provider
                                   (@encode demo_provider six_comb) e_a
                ∧ StronglySorted ranks_before r
                ∧ memberIndices c = r.*1) out.
Proof. apply (@anchor_rank_order demo_provider six_comb 5 3). lia. Defined.

Lemma anchor_dropped_do_not_fit_witness :
  ∃ out,
    outcome (@semantic_cluster_chunking demo_provider six_comb 5 3) = Ok out
    ∧ ∀ (i : nat) (w : string),
        six_comb !! i = Some w → (∀ c, c ∈ out → i ∉ memberIndices c) →
        Forall (λ c, Z.of_nat (word_count_of (text c)) = 3%Z
                     ∨ (3 < word_count_of (text c) + word_count_of w)%Z) out.
Proof. apply (@anchor_dropped_do_not_fit demo_provider six_comb 5 3). lia. Defined.

Lemma anchor_chunk_count_witness :
  ∃ out,
    outcome (@semantic_cluster_chunking demo_provider six_comb 5 3) = Ok out
    ∧ (length out ≤ (length six_comb + 5 - 1) / 5)%Z
    ∧ ((length six_comb ≤ 5)%Z → length out ≤ 1).
Proof. apply (@anchor_chunk_count demo_provider six_comb 5 3). lia. Defined.

Lemma anchor_one_chunk_witness :
  ∃ (e_0 : @embedding demo_provider) (ms : list (nat * string)),
    (@encode demo_provider six_comb) !! 0 = Some e_0
    ∧ ms.*1 = (@ranked_for demo_provider (@encode demo_provider six_comb) e_0).*1
    ∧ ms.*1 ≡ₚ seq 0 (length six_comb)
    ∧ members_of six_comb ms
    ∧ outcome (@semantic_cluster_chunking demo_provider six_comb 5 512)
      = Ok [emit ms].
Proof.
  apply (@anchor_one_chunk demo_provider six_comb 5 512).
  - lia.
  - discriminate.
  - vm_compute. reflexivity.
Defined.

Lemma func_whole_text_witness :
  func (mk_sentences ["A."; "B."; "C."]%string) 2
  = Ok (replicate (length (mk_sentences ["A."; "B."; "C."]%string))
          (glue (sentences <$> mk_sentences ["A."; "B."; "C."]%string))).
Proof.
  apply (func_whole_text (mk_sentences ["A."; "B."; "C."]%string) 2).
  cbn. lia.
Defined.

Lemma notebook_flow_witness :
  ∃ comb,
    notebook_comb "One. Two! Three?"%string = Ok comb
    ∧ length comb = length (split_sentences "One. Two! Three?"%string)
    ∧ comb ≠ []
    ∧ (∃ out, outcome (@semantic_chunking demo_provider comb (3 # 4) None) = Ok out
              ∧ out ≠ [])
    ∧ (∃ out, outcome (@semantic_cluster_chunking demo_provider comb 5 512)
              = Ok out).
Proof.
  apply (@notebook_flow demo_provider "One. Two! Three?"%string (3 # 4) None 5 512).
  lia.
Defined.
